(** * Incendium: stored-procedure and user gateways for Ignition scripting

    A shallow embedding of [incendium/db.py] and [incendium/user.py].

    Both modules are thin adapters over the scripting API of the host
    platform ([system.db], [system.user], [system.security]).  The host is
    not part of the repository, so it is a parameter of the development:
    an arbitrary oracle that answers each API call from its current state,
    either with a value or by raising.  Every API call made by the code is
    recorded, with the answer it got, in a trace, so that statements about
    the order and number of host calls can be made. *)

From Stdlib Require Import List String ZArith Bool.
From Stdlib Require Import Sorting.Sorted Lists.ListSet.
From Stdlib Require OrderedTypeEx.
Import ListNotations.
Local Open Scope string_scope.
Local Open Scope list_scope.

(** ** Values of the scripting runtime *)

(** [User.get(prop)] is keyed by one of the host's user properties. *)
Inductive UserProperty : Type :=
| Username | FirstName | LastName | Language.

(** One entry of [user.getContactInfo()]. *)
Record ContactInfo : Type := mkContactInfo {
  contactType : string;
  value : string
}.

(** The host's user object, as the data its accessors give.  [get] answers
    [None] (Python's [None]) for a property that is not set. *)
Record User : Type := mkUser {
  get : UserProperty -> option string;
  getOrDefault : UserProperty -> option string;
  getContactInfo : list ContactInfo;
  getRoles : list string
}.

Local Set Warnings "-register-all".

(** Python values that cross the boundary between scripts, this code and
    the host. *)
Inductive pyval : Type :=
| PNone
| PBool (b : bool)
| PInt (n : Z)
| PStr (s : string)
| PSeq (items : list pyval)
| PDict (entries : list (string * pyval))
| PDataset (columns : list string) (rows : list (list pyval))
| PUser (u : User)
| PObj (id : nat).

(** A [dict] with string keys, in iteration order. *)
Definition pydict : Type := list (string * pyval).

(** Exceptions: those of the runtime that this code can provoke, and
    whatever the host raises. *)
Inductive exn : Type :=
| AttributeError
| IndexError
| KeyError (k : string)
| TypeError
| HostError (msg : string).

Definition result (A : Type) : Type := (exn + A)%type.

(** Truth value of an object, as tested by [if x:]; an object of the host
    is true. *)
Definition truthy (v : pyval) : bool :=
  match v with
  | PNone => false
  | PBool b => b
  | PInt n => negb (n =? 0)%Z
  | PStr s => negb (s =? EmptyString)
  | PSeq items => match items with [] => false | _ :: _ => true end
  | PDict entries => match entries with [] => false | _ :: _ => true end
  | PDataset _ _ => true
  | PUser _ => true
  | PObj _ => true
  end.

(** [d[k]] on a dict. *)
Fixpoint dict_get (d : pydict) (k : string) : result pyval :=
  match d with
  | [] => inl (KeyError k)
  | (k', v) :: d' => if k' =? k then inr v else dict_get d' k
  end.

(** [d[k] = v] on a dict: an existing key keeps its place. *)
Fixpoint dict_set (d : pydict) (k : string) (v : pyval) : pydict :=
  match d with
  | [] => [(k, v)]
  | (k', v') :: d' =>
      if k' =? k then (k', v) :: d' else (k', v') :: dict_set d' k v
  end.

(** The keys a [for k in d] loop visits. *)
Definition dict_keys (d : pydict) : list string := map fst d.

(** [s[i]] for a non-negative literal index [i]. *)
Definition getitem (s : pyval) (i : nat) : result pyval :=
  match s with
  | PSeq items =>
      match nth_error items i with
      | Some v => inr v
      | None => inl IndexError
      end
  | PStr str =>
      match String.get i str with
      | Some c => inr (PStr (String c EmptyString))
      | None => inl IndexError
      end
  | _ => inl TypeError
  end.

(** [v[k]] where [k] is a string key. *)
Definition getkey (v : pyval) (k : string) : result pyval :=
  match v with
  | PDict entries => dict_get entries k
  | _ => inl TypeError
  end.

(** [x in roles] where [roles] is a list of role names. *)
Definition py_in (x : pyval) (l : list string) : bool :=
  match x with
  | PStr s => existsb (String.eqb s) l
  | _ => false
  end.

(** [sep.join(items)]. *)
Fixpoint str_join (sep : string) (items : list (option string)) : result string :=
  match items with
  | [] => inr EmptyString
  | None :: _ => inl TypeError
  | Some s :: rest =>
      match rest with
      | [] => inr s
      | _ :: _ =>
          match str_join sep rest with
          | inr r => inr (s ++ sep ++ r)%string
          | inl e => inl e
          end
      end
  end.

(** [sorted(l)] on strings: ordered by character codes. *)
Fixpoint insert_sorted (x : string) (l : list string) : list string :=
  match l with
  | [] => [x]
  | y :: l' => if (x <=? y)%string then x :: l else y :: insert_sorted x l'
  end.

Definition sorted (l : list string) : list string :=
  fold_right insert_sorted [] l.

(** ** Calls into the host platform *)

Inductive syscall : Type :=
| createSProcCall (procedureName database : string) (tx : pyval) (skipAudit : bool)
| registerInParam (call : pyval) (name : string) (typeCode val : pyval)
| registerOutParam (call : pyval) (name : string) (typeCode : pyval)
| registerReturnParam (call : pyval) (typeCode : pyval)
| execSProcCall (call : pyval)
| getOutParamValue (call : pyval) (name : string)
| getResultSet (call : pyval)
| getReturnValue (call : pyval)
| getUpdateCount (call : pyval)
| getUsername
| getUser (userSource username : pyval)
| getUsers (userSource : pyval).

(** One line of the trace: the call and the host's answer. *)
Definition event : Type := (syscall * result pyval)%type.

Definition answered (ev : event) : Prop :=
  match snd ev with inr _ => True | inl _ => False end.

Definition calls (tr : list event) : list syscall := map fst tr.

(** ** The effect of a script: host state, trace, and exceptions *)

Section Effects.

Context {W : Type}.

(** The host: answers a call from its state, and moves to a new state. *)
Variable host : W -> syscall -> result pyval * W.

Definition state : Type := (W * list event)%type.

Definition M (A : Type) : Type := state -> result A * state.

Definition ret {A} (a : A) : M A := fun s => (inr a, s).

Definition raise {A} (e : exn) : M A := fun s => (inl e, s).

Definition bind {A B} (m : M A) (f : A -> M B) : M B :=
  fun s =>
    match m s with
    | (inr a, s') => f a s'
    | (inl e, s') => (inl e, s')
    end.

Definition lift {A} (r : result A) : M A :=
  match r with
  | inr a => ret a
  | inl e => raise e
  end.

(** A call into the host, recorded with its answer. *)
Definition sys (c : syscall) : M pyval :=
  fun s =>
    let '(r, w') := host (fst s) c in
    (r, (w', snd s ++ [(c, r)])).

(** [for x in xs: acc = body(x, acc)]. *)
Fixpoint for_each {A S} (xs : list A) (body : A -> S -> M S) (acc : S) : M S :=
  match xs with
  | [] => ret acc
  | x :: xs' => bind (body x acc) (for_each xs' body)
  end.

End Effects.

Arguments state W : clear implicits.
Arguments M W A : clear implicits.

Declare Scope script_scope.
Delimit Scope script_scope with script.
Notation "x <- m ;; k" := (bind m (fun x => k))
(at level 61, m at next level, right associativity) : script_scope.
Notation "m ;;; k" := (bind m (fun _ => k))
(at level 61, right associativity) : script_scope.

Local Open Scope script_scope.

(** ** incendium/db.py *)

(** [class _Result]: every field is [None] unless given. *)
Record _Result : Type := mk_Result {
output_params : pyval;
result_set : pyval;
return_value : pyval;
update_count : pyval
}.

Definition new_Result : _Result := mk_Result PNone PNone PNone PNone.

Definition set_output_params (r : _Result) (v : pyval) : _Result :=
mk_Result v (result_set r) (return_value r) (update_count r).
Definition set_result_set (r : _Result) (v : pyval) : _Result :=
mk_Result (output_params r) v (return_value r) (update_count r).
Definition set_return_value (r : _Result) (v : pyval) : _Result :=
mk_Result (output_params r) (result_set r) v (update_count r).
Definition set_update_count (r : _Result) (v : pyval) : _Result :=
mk_Result (output_params r) (result_set r) (return_value r) v.

(** [if params:] on an optional dict argument: the dict when it is given
  and not empty. *)
Definition nonempty (params : option pydict) : option pydict :=
match params with
| Some ((_ :: _) as d) => Some d
| _ => None
end.

Section Db.

Context {W : Type}.
Variable host : W -> syscall -> result pyval * W.

(** [system.db.BIT], a type code constant of the host. *)
Variable BIT : pyval.


(** Body of the loop that registers INPUT parameters. *)
Definition register_in (call : pyval) (in_params : pydict)
    (in_param : string) (_ : unit) : M W unit :=
  p0 <- lift (dict_get in_params in_param) ;;
  typeCode <- lift (getitem p0 0) ;;
  p1 <- lift (dict_get in_params in_param) ;;
  val <- lift (getitem p1 1) ;;
  sys host (registerInParam call in_param typeCode val) ;;;
  ret tt.

(** Body of the loop that registers OUTPUT parameters. *)
Definition register_out (call : pyval) (out_params : pydict)
    (out_param : string) (_ : unit) : M W unit :=
  typeCode <- lift (dict_get out_params out_param) ;;
  sys host (registerOutParam call out_param typeCode) ;;;
  ret tt.

(** Body of the loop that reads the OUTPUT parameters back. *)
Definition read_out (call : pyval) (out_param : string)
    (_out_params : pydict) : M W pydict :=
  v <- sys host (getOutParamValue call out_param) ;;
  ret (dict_set _out_params out_param v).

Definition _execute_sp (stored_procedure database : string)
    (transaction : pyval) (skip_audit : bool)
    (in_params out_params : option pydict)
    (get_out_params get_result_set get_ret_val : bool)
    (return_type_code : pyval) (get_update_count : bool) : M W _Result :=
  let _out_params : pydict := [] in
  let _result := new_Result in
  call <- sys host (createSProcCall stored_procedure database transaction skip_audit) ;;
  match nonempty in_params with
  | Some d => for_each (dict_keys d) (register_in call d) tt
  | None => ret tt
  end ;;;
  match nonempty out_params with
  | Some d => for_each (dict_keys d) (register_out call d) tt
  | None => ret tt
  end ;;;
  (if get_ret_val
   then sys host (registerReturnParam call return_type_code) ;;; ret tt
   else ret tt) ;;;
  sys host (execSProcCall call) ;;;
  _out_params <-
    match nonempty out_params with
    | Some d => for_each (dict_keys d) (read_out call) _out_params
    | None => ret _out_params
    end ;;
  _result <-
    (if get_out_params
     then ret (set_output_params _result (PDict _out_params))
     else ret _result) ;;
  _result <-
    (if get_result_set
     then v <- sys host (getResultSet call) ;; ret (set_result_set _result v)
     else ret _result) ;;
  _result <-
    (if get_ret_val
     then v <- sys host (getReturnValue call) ;; ret (set_return_value _result v)
     else ret _result) ;;
  _result <-
    (if get_update_count
     then v <- sys host (getUpdateCount call) ;; ret (set_update_count _result v)
     else ret _result) ;;
  ret _result.

Definition get_output_params (stored_procedure : string) (output : option pydict)
    (params : option pydict) (transaction : pyval) : M W pyval :=
  result <- _execute_sp stored_procedure EmptyString transaction false
              params output true false false PNone false ;;
  ret (output_params result).

Definition check (stored_procedure : string) (params : option pydict) : M W pyval :=
  let output := Some [("flag", BIT)] in
  output_params <- get_output_params stored_procedure output params PNone ;;
  lift (getkey output_params "flag").

Definition execute_non_query (stored_procedure : string)
    (params : option pydict) (transaction : pyval) : M W pyval :=
  result <- _execute_sp stored_procedure EmptyString transaction false
              params None false false false PNone true ;;
  ret (update_count result).

Definition get_data (stored_procedure : string) (params : option pydict) : M W pyval :=
  result <- _execute_sp stored_procedure EmptyString PNone false
              params None false true false PNone false ;;
  ret (result_set result).

Definition get_return_value (stored_procedure : string) (return_type_code : pyval)
    (params : option pydict) (transaction : pyval) : M W pyval :=
  result <- _execute_sp stored_procedure EmptyString transaction false
              params None false false true return_type_code false ;;
  ret (return_value result).

End Db.

(** ** incendium/user.py *)

(** [class _User]: the attributes copied from the host's user object. *)
Record _User : Type := mk_User {
_username : option string;
_first_name : option string;
_last_name : option string;
_locale : option string
}.

(** [_User.__init__]. *)
Definition new_User (user : User) : _User :=
mk_User (get user Username) (get user FirstName) (get user LastName)
        (getOrDefault user Language).

Definition get_first_name (self : _User) : option string := _first_name self.

Definition get_full_name (self : _User) : result string :=
str_join " " [_first_name self; _last_name self].

Definition get_locale (self : _User) : option string := _locale self.

(** [for x in v]: the items visited, when [v] is a sequence. *)
Definition iter (v : pyval) : result (list pyval) :=
match v with
| PSeq items => inr items
| _ => inl TypeError
end.

(** A method of the host's user object is looked up on [v]. *)
Definition as_user (v : pyval) : result User :=
match v with
| PUser u => inr u
| _ => inl AttributeError
end.

(** [set.add]. *)
Definition add (email : string) (emails : set string) : set string :=
set_add string_dec email emails.

Section UserGateway.

Context {W : Type}.
Variable host : W -> syscall -> result pyval * W.


(** Body of the loop over the users of the source. *)
Definition collect_emails (filter_role : pyval) (user : pyval)
    (emails : set string) : M W (set string) :=
  u <- lift (as_user user) ;;
  let _emails :=
    map value
        (filter (fun ci => contactType ci =? "email") (getContactInfo u)) in
  ret (fold_left
         (fun emails email =>
            if truthy filter_role
            then if py_in filter_role (getRoles u)
                 then add email emails
                 else emails
            else add email emails)
         _emails emails).

Definition get_emails (user_source filter_role : pyval) : M W (list string) :=
  let emails : set string := empty_set string in
  users <- sys host (getUsers user_source) ;;
  items <- lift (iter users) ;;
  emails <- for_each items (collect_emails filter_role) emails ;;
  ret (sorted emails).

Definition get_user (user_source failover : pyval) : M W (option _User) :=
  let user := PNone in
  let user_obj : option _User := None in
  _username <- sys host getUsername ;;
  user <-
    (if truthy user_source
     then sys host (getUser user_source _username)
     else ret user) ;;
  user <-
    (if negb (truthy user) && truthy failover
     then sys host (getUser failover _username)
     else ret user) ;;
  user_obj <-
    (if truthy user
     then u <- lift (as_user user) ;; ret (Some (new_User u))
     else ret user_obj) ;;
  ret user_obj.

End UserGateway.

(** ** Vocabulary of the statements *)

(** [p] is an initial part of [l]. *)
Definition is_prefix {A} (p l : list A) : Prop := exists rest, l = p ++ rest.

(** A trace segment that ends with the host raising [x], every earlier
    call having been answered. *)
Definition failed_with (x : exn) (d : list event) : Prop :=
  exists pre c, d = pre ++ [(c, inl x)] /\ Forall answered pre.

(** A run that returns was answered at every call; a run that raises either
    raised on its own after answered calls, or passes on the exception of
    the last call it made. *)
Definition outcome_ok {A} (r : result A) (d : list event) : Prop :=
  match r with
  | inr _ => Forall answered d
  | inl x => Forall answered d \/ failed_with x d
  end.

(** A script whose every run is of this kind. *)
Definition disciplined {W A} (m : M W A) : Prop :=
  forall s, exists d,
    snd (snd (m s)) = snd s ++ d /\ outcome_ok (fst (m s)) d.

(** A script whose runs make the calls [l], in this order, up to the point
    where they raise, if they do. *)
Definition emits {W A} (m : M W A) (l : list syscall) : Prop :=
  forall s, exists d,
    snd (snd (m s)) = snd s ++ d /\
    is_prefix (calls d) l /\
    (forall a, fst (m s) = inr a -> calls d = l).

(** The registration an entry of the input map leads to. *)
Definition in_calls (call : pyval) (d : pydict) (k : string) : list syscall :=
  match dict_get d k with
  | inr p =>
      match getitem p 0, getitem p 1 with
      | inr t, inr v => [registerInParam call k t v]
      | _, _ => []
      end
  | inl _ => []
  end.

Definition out_calls (call : pyval) (d : pydict) (k : string) : list syscall :=
  match dict_get d k with
  | inr t => [registerOutParam call k t]
  | inl _ => []
  end.

(** The dict an optional dict argument stands for. *)
Definition declared (params : option pydict) : pydict :=
  match params with
  | Some d => d
  | None => []
  end.

(** The calls of an invocation after the call object was created. *)
Definition registration_calls (call : pyval) (in_params out_params : option pydict)
    (get_ret_val : bool) (return_type_code : pyval) : list syscall :=
  flat_map (in_calls call (declared in_params)) (dict_keys (declared in_params)) ++
  flat_map (out_calls call (declared out_params)) (dict_keys (declared out_params)) ++
  (if get_ret_val then [registerReturnParam call return_type_code] else []).

Definition readback_calls (call : pyval) (out_params : option pydict)
    (get_result_set get_ret_val get_update_count : bool) : list syscall :=
  map (getOutParamValue call) (dict_keys (declared out_params)) ++
  (if get_result_set then [getResultSet call] else []) ++
  (if get_ret_val then [getReturnValue call] else []) ++
  (if get_update_count then [getUpdateCount call] else []).

(** An entry of the input map as the caller means it: name, type tag and
    value. *)
Definition in_entry : Type := (string * (pyval * pyval))%type.

Definition decode_entry (kv : string * pyval) : option in_entry :=
  match snd kv with
  | PSeq (t :: v :: _) => Some (fst kv, (t, v))
  | _ => None
  end.

Fixpoint decode (d : pydict) : option (list in_entry) :=
  match d with
  | [] => Some []
  | kv :: d' =>
      match decode_entry kv, decode d' with
      | Some e, Some es => Some (e :: es)
      | _, _ => None
      end
  end.

Definition reg_in (call : pyval) (e : in_entry) : syscall :=
  registerInParam call (fst e) (fst (snd e)) (snd (snd e)).

Definition reg_out (call : pyval) (kv : string * pyval) : syscall :=
  registerOutParam call (fst kv) (snd kv).

(** The calls that register a parameter of the call. *)
Definition is_registration (c : syscall) : Prop :=
  match c with
  | registerInParam _ _ _ _ | registerOutParam _ _ _
  | registerReturnParam _ _ => True
  | _ => False
  end.

(** The calls that read a facet of the executed call back. *)
Definition is_readback (c : syscall) : Prop :=
  match c with
  | getOutParamValue _ _ | getResultSet _ | getReturnValue _
  | getUpdateCount _ => True
  | _ => False
  end.

(** The trace of reading the output parameters back, and the dict built
    from the answers. *)
Definition out_event (call : pyval) (kv : string * pyval) : event :=
  (getOutParamValue call (fst kv), inr (snd kv)).

Definition store (d : pydict) (kv : string * pyval) : pydict :=
  dict_set d (fst kv) (snd kv).

Definition str_le (a b : string) : Prop := (a <=? b)%string = true.

(** Whether the role filter lets the addresses of a user through. *)
Definition wanted (filter_role : pyval) (u : User) : bool :=
  if truthy filter_role then py_in filter_role (getRoles u) else true.

(** The user has a contact entry of type "email" with this value. *)
Definition has_email (u : User) (e : string) : Prop :=
  exists ci, In ci (getContactInfo u) /\ contactType ci = "email" /\ value ci = e.

(** The addresses one user adds to the set. *)
Definition add_emails (filter_role : pyval) (u : User) (emails : set string)
  : set string :=
  fold_left
    (fun emails email =>
       if truthy filter_role
       then if py_in filter_role (getRoles u) then add email emails else emails
       else add email emails)
    (map value (filter (fun ci => contactType ci =? "email") (getContactInfo u)))
    emails.

(** A script that passes the host's exceptions on: a call on which the host
    raised is the last call of the run, and the run raises the very same
    exception. *)
Definition passes_failures_on {W A} (m : M W A) : Prop :=
  forall s, exists d,
    snd (snd (m s)) = snd s ++ d /\
    forall c x, In ((c, inl x) : event) d ->
      fst (m s) = inl x /\
      exists pre, d = pre ++ [(c, inl x)] /\ Forall answered pre.

(** Two runs that leave the same state and trace, and either raise the same
    exception or return values related by [Q]. *)
Definition agree {W A B} (Q : A -> B -> Prop)
    (x : result A * state W) (y : result B * state W) : Prop :=
  snd x = snd y /\
  match fst x, fst y with
  | inl e, inl e' => e = e'
  | inr a, inr b => Q a b
  | _, _ => False
  end.

(** The trace segment [d] is what the host answers, call after call, from
    the state [w]; it leaves the host in the state [w']. *)
Fixpoint host_run {W} (host : W -> syscall -> result pyval * W)
    (w : W) (d : list event) (w' : W) : Prop :=
  match d with
  | [] => w' = w
  | ev :: d' =>
      exists w1, host w (fst ev) = (snd ev, w1) /\ host_run host w1 d' w'
  end.

(** A script whose runs add to the trace what the host answered, and leave
    the host in the state it reached by answering. *)
Definition faithful {W A} (host : W -> syscall -> result pyval * W)
    (m : M W A) : Prop :=
  forall s, exists d,
    snd (snd (m s)) = snd s ++ d /\
    host_run host (fst s) d (fst (snd (m s))).

(** A script that raises only what the host raised on the last call made,
    and returns only when every call was answered. *)
Definition strict {W A} (m : M W A) : Prop :=
  forall s, exists d,
    snd (snd (m s)) = snd s ++ d /\
    match fst (m s) with
    | inr _ => Forall answered d
    | inl x => failed_with x d
    end.

(** ** A host used to run the code on concrete inputs *)

Definition alice : User :=
  mkUser (fun p => match p with
                   | Username => Some "alice"
                   | FirstName => Some "Alice"
                   | LastName => Some "Archer"
                   | Language => None
                   end)
         (fun p => match p with Language => Some "en" | _ => None end)
         [mkContactInfo "email" "alice@plant.example";
          mkContactInfo "phone" "555-0100";
          mkContactInfo "email" "ops@plant.example"]
         ["Operator"].

Definition bob : User :=
  mkUser (fun p => match p with
                   | Username => Some "bob"
                   | FirstName => Some "Bob"
                   | LastName => Some "Baker"
                   | Language => Some "de"
                   end)
         (fun p => match p with Language => Some "de" | _ => None end)
         [mkContactInfo "email" "ops@plant.example";
          mkContactInfo "email" "bob@plant.example"]
         ["Operator"; "Administrator"].

(** The state counts the calls answered so far.  The procedure "log_event"
    selects nothing and sets no output: its call object is [PObj 8]. *)
Definition demo_host (w : nat) (c : syscall) : result pyval * nat :=
  (match c with
   | createSProcCall "missing_proc" _ _ _ => inl (HostError "no such procedure")
   | createSProcCall "log_event" _ _ _ => inr (PObj 8)
   | createSProcCall _ _ _ _ => inr (PObj 7)
   | registerInParam _ _ _ _ => inr PNone
   | registerOutParam _ "bad" _ => inl (HostError "unknown parameter")
   | registerOutParam _ _ _ => inr PNone
   | registerReturnParam _ _ => inr PNone
   | execSProcCall _ => inr PNone
   | getOutParamValue (PObj 8) _ => inl (HostError "parameter was not set")
   | getOutParamValue _ "flag" => inr (PBool true)
   | getOutParamValue _ _ => inr (PInt 42)
   | getResultSet (PObj 8) => inr PNone
   | getResultSet _ => inr (PDataset ["id"; "name"] [])
   | getReturnValue _ => inr (PInt 0)
   | getUpdateCount (PObj 8) => inr (PInt (-1))
   | getUpdateCount _ => inr (PInt 3)
   | getUsername => inr (PStr "alice")
   | getUser (PStr EmptyString) _ => inr (PUser alice)
   | getUser (PStr "primary") (PStr "alice") => inr (PUser alice)
   | getUser (PStr "backup") (PStr "alice") => inr (PUser bob)
   | getUser _ _ => inr PNone
   | getUsers _ => inr (PSeq [PUser alice; PUser bob])
   end, S w).

Definition start : state nat := (0, []).


(** A user whose first name is not set. *)
Definition carol : User :=
  mkUser (fun p => match p with
                   | Username => Some "carol"
                   | LastName => Some "Cole"
                   | _ => None
                   end)
         (fun p => match p with Language => Some "en" | _ => None end)
         []
         [].

(** The same host, listing the users of a source in another order. *)
Definition relisting_host (w : nat) (c : syscall) : result pyval * nat :=
  match c with
  | getUsers _ => (inr (PSeq [PUser bob; PUser alice; PUser bob]), S w)
  | _ => demo_host w c
  end.

(** ** Reasoning about scripts *)

Section EffectFacts.

Context {W : Type}.
Variable host : W -> syscall -> result pyval * W.

Lemma bind_returns {A B} (m : M W A) (f : A -> M W B) s b s' :
  bind m f s = (inr b, s') ->
  exists a s1, m s = (inr a, s1) /\ f a s1 = (inr b, s').
Proof.
  unfold bind. destruct (m s) as [[x | a] s1]; intros H.
  - discriminate.
  - exists a, s1. split; [reflexivity | exact H].
Qed.

Lemma ret_returns {A} (a b : A) (s s' : state W) :
  ret a s = (inr b, s') -> b = a /\ s' = s.
Proof. unfold ret. intros H. injection H as <- <-. split; reflexivity. Qed.

Lemma lift_returns {A} (r : result A) (b : A) (s s' : state W) :
  lift r s = (inr b, s') -> r = inr b /\ s' = s.
Proof.
  destruct r as [x | a]; simpl; unfold raise, ret; intros H.
  - discriminate.
  - injection H as <- <-. split; reflexivity.
Qed.

Lemma sys_returns c s v s' :
  sys host c s = (inr v, s') ->
  host (fst s) c = (inr v, fst s') /\ snd s' = snd s ++ [(c, inr v)].
Proof.
  unfold sys. destruct (host (fst s) c) as [r w'] eqn:E. intros H.
  injection H as -> <-. simpl. split; reflexivity.
Qed.

Lemma sys_trace c s :
  snd (snd (sys host c s)) = snd s ++ [(c, fst (sys host c s))].
Proof. unfold sys. destruct (host (fst s) c) as [r w']. reflexivity. Qed.

(** *** Failures are passed on *)

Lemma disciplined_ret {A} (a : A) : disciplined (ret a : M W A).
Proof. intros s. exists []. simpl. rewrite app_nil_r. auto. Qed.

Lemma disciplined_lift {A} (r : result A) : disciplined (lift r : M W A).
Proof.
  intros s. exists []. destruct r; simpl; rewrite app_nil_r; auto.
Qed.

Lemma disciplined_sys c : disciplined (sys host c).
Proof.
  intros s. exists [(c, fst (sys host c s))]. split.
  - apply sys_trace.
  - destruct (fst (sys host c s)) as [x | v] eqn:E; simpl.
    + right. exists [], c. split; [reflexivity | constructor].
    + constructor; [exact I | constructor].
Qed.

Lemma disciplined_bind {A B} (m : M W A) (f : A -> M W B) :
  disciplined m -> (forall a, disciplined (f a)) -> disciplined (bind m f).
Proof.
  intros Hm Hf s. destruct (Hm s) as (d1 & T1 & O1).
  unfold bind. destruct (m s) as [[x | a] s1]; simpl in *.
  - exists d1. split; assumption.
  - destruct (Hf a s1) as (d2 & T2 & O2).
    exists (d1 ++ d2). rewrite T2, T1, app_assoc. split; [reflexivity |].
    destruct (fst (f a s1)) as [x | b]; simpl in *.
    + destruct O2 as [O2 | (pre & c & -> & O2)].
      * left. apply Forall_app. split; assumption.
      * right. exists (d1 ++ pre), c. rewrite app_assoc. split; [reflexivity |].
        apply Forall_app. split; assumption.
    + apply Forall_app. split; assumption.
Qed.

Lemma disciplined_for_each {A S} (body : A -> S -> M W S) (xs : list A) :
  (forall x acc, disciplined (body x acc)) ->
  forall acc, disciplined (for_each xs body acc).
Proof.
  intros Hb. induction xs as [| x xs IH]; intros acc; simpl.
  - apply disciplined_ret.
  - apply disciplined_bind; [apply Hb | exact IH].
Qed.

(** *** The calls a script makes *)

Lemma emits_ret {A} (a : A) : emits (ret a : M W A) [].
Proof.
  intros s. exists []. simpl. rewrite app_nil_r.
  repeat split. exists []. reflexivity.
Qed.

Lemma emits_lift {A} (r : result A) : emits (lift r : M W A) [].
Proof.
  intros s. exists []. destruct r; simpl; rewrite app_nil_r;
    repeat split; exists []; reflexivity.
Qed.

Lemma emits_sys c : emits (sys host c) [c].
Proof.
  intros s. exists [(c, fst (sys host c s))]. split; [apply sys_trace |].
  split; [exists []; reflexivity | reflexivity].
Qed.

Lemma emits_bind {A B} (m : M W A) (f : A -> M W B) l1 l2 :
  emits m l1 -> (forall a, emits (f a) l2) -> emits (bind m f) (l1 ++ l2).
Proof.
  intros Hm Hf s. destruct (Hm s) as (d1 & T1 & P1 & E1).
  unfold bind. destruct (m s) as [[x | a] s1]; simpl in *.
  - exists d1. split; [assumption |]. split; [| discriminate].
    destruct P1 as [rest ->]. exists (rest ++ l2). symmetry. apply app_assoc.
  - destruct (Hf a s1) as (d2 & T2 & [rest P2] & E2).
    exists (d1 ++ d2). rewrite T2, T1, app_assoc. split; [reflexivity |].
    specialize (E1 a eq_refl). unfold calls in *. rewrite map_app, <- E1. split.
    + exists rest. rewrite P2. apply app_assoc.
    + intros b Hb. rewrite <- (E2 b Hb). reflexivity.
Qed.

Lemma emits_bind_lift {A B} (r : result A) (f : A -> M W B) l :
  (forall a, r = inr a -> emits (f a) l) -> emits (bind (lift r) f) l.
Proof.
  intros Hf. destruct r as [x | a].
  - intros s. exists []. simpl. rewrite app_nil_r.
    split; [reflexivity |]. split; [exists l; reflexivity | discriminate].
  - exact (Hf a eq_refl).
Qed.

Lemma emits_bind_sys {B} c (f : pyval -> M W B) (l : pyval -> list syscall) :
  (forall v, emits (f v) (l v)) ->
  forall s, exists d,
    snd (snd (bind (sys host c) f s)) = snd s ++ d /\
    match fst (host (fst s) c) with
    | inl x => calls d = [c] /\ fst (bind (sys host c) f s) = inl x
    | inr v =>
        is_prefix (calls d) (c :: l v) /\
        (forall b, fst (bind (sys host c) f s) = inr b -> calls d = c :: l v)
    end.
Proof.
  intros Hf s. unfold bind, sys.
  destruct (host (fst s) c) as [[x | v] w1]; simpl.
  - exists [(c, inl x)]. repeat split.
  - destruct (Hf v (w1, snd s ++ [(c, inr v)])) as (d & T & [rest P] & E).
    simpl in T. exists ((c, inr v) :: d). split.
    { etransitivity; [exact T |]. rewrite <- app_assoc. reflexivity. }
    split.
    + exists rest. rewrite P. reflexivity.
    + intros b Hb. rewrite <- (E b Hb). reflexivity.
Qed.

Lemma emits_eq {A} (m : M W A) l l' : emits m l -> l = l' -> emits m l'.
Proof. intros H <-. exact H. Qed.

Lemma emits_for_each {A S} (body : A -> S -> M W S) (g : A -> list syscall)
    (xs : list A) :
  (forall x acc, emits (body x acc) (g x)) ->
  forall acc, emits (for_each xs body acc) (flat_map g xs).
Proof.
  intros Hb. induction xs as [| x xs IH]; intros acc; simpl.
  - apply emits_ret.
  - apply emits_bind; [apply Hb | exact IH].
Qed.

(** In a disciplined run, a call on which the host raised is the last call
    of the run, and the run raises the same exception. *)
Lemma disciplined_failure {A} (m : M W A) s :
  disciplined m ->
  exists d,
    snd (snd (m s)) = snd s ++ d /\
    (forall c x, In ((c, inl x) : event) d ->
       fst (m s) = inl x /\
       exists pre, d = pre ++ [(c, inl x)] /\ Forall answered pre) /\
    (forall a, fst (m s) = inr a -> Forall answered d).
Proof.
  intros Hd. destruct (Hd s) as (d & T & O). exists d.
  split; [exact T |]. split.
  - intros c x Hin. destruct (fst (m s)) as [y | a]; simpl in O.
    + destruct O as [O | (pre & c' & -> & O)].
      * rewrite Forall_forall in O. destruct (O _ Hin).
      * apply in_app_or in Hin. destruct Hin as [Hin | [Heq | []]].
        -- rewrite Forall_forall in O. destruct (O _ Hin).
        -- injection Heq as -> ->. split; [reflexivity |].
           exists pre. split; [reflexivity | exact O].
    + rewrite Forall_forall in O. destruct (O _ Hin).
  - intros a Ha. rewrite Ha in O. exact O.
Qed.

(** A run that returns has made all the calls of the script, and each was
    answered. *)
Lemma returns_all {A} (m : M W A) l s a s' :
  emits m l -> disciplined m -> m s = (inr a, s') ->
  exists d, snd s' = snd s ++ d /\ calls d = l /\ Forall answered d.
Proof.
  intros He Hd Hm.
  destruct (He s) as (d1 & T1 & _ & E1).
  destruct (Hd s) as (d2 & T2 & O2).
  rewrite Hm in *. simpl in *.
  assert (d2 = d1) as -> by (apply (app_inv_head (snd s)); congruence).
  exists d1. split; [assumption |]. split; [apply (E1 a eq_refl) | exact O2].
Qed.

(** *** Runs and the host's answers *)

Lemma host_run_app (d1 : list event) : forall w w1 d2 w2,
  host_run host w d1 w1 -> host_run host w1 d2 w2 ->
  host_run host w (d1 ++ d2) w2.
Proof.
  induction d1 as [| ev d1 IH]; simpl; intros w w1 d2 w2 H1 H2.
  - subst. exact H2.
  - destruct H1 as (w0 & Hh & H1). exists w0.
    split; [exact Hh | exact (IH _ _ _ _ H1 H2)].
Qed.

Lemma host_run_split (d1 : list event) : forall w d2 w2,
  host_run host w (d1 ++ d2) w2 ->
  exists w1, host_run host w d1 w1 /\ host_run host w1 d2 w2.
Proof.
  induction d1 as [| ev d1 IH]; simpl; intros w d2 w2 H.
  - exists w. split; [reflexivity | exact H].
  - destruct H as (w0 & Hh & H). destruct (IH _ _ _ H) as (w1 & H1 & H2).
    exists w1. split; [exists w0; split; assumption | exact H2].
Qed.

Lemma host_run_last (pre : list event) c r w w' :
  host_run host w (pre ++ [(c, r)]) w' ->
  exists w_pre, host_run host w pre w_pre /\ host w_pre c = (r, w').
Proof.
  intros H. apply host_run_split in H. destruct H as (w1 & H1 & H2).
  simpl in H2. destruct H2 as (w0 & Hh & ->).
  exists w1. split; assumption.
Qed.

Lemma host_run_in (d : list event) : forall w w' c r,
  host_run host w d w' -> In (c, r) d ->
  exists w1 w2, host w1 c = (r, w2).
Proof.
  induction d as [| ev d IH]; simpl; intros w w' c r H Hin; [contradiction |].
  destruct H as (w0 & Hh & H). destruct Hin as [-> | Hin].
  - exists w, w0. exact Hh.
  - exact (IH _ _ _ _ H Hin).
Qed.

Lemma faithful_ret {A} (a : A) : faithful host (ret a : M W A).
Proof. intros s. exists []. simpl. rewrite app_nil_r. auto. Qed.

Lemma faithful_lift {A} (r : result A) : faithful host (lift r : M W A).
Proof. intros s. exists []. destruct r; simpl; rewrite app_nil_r; auto. Qed.

Lemma faithful_sys c : faithful host (sys host c).
Proof.
  intros s. exists [(c, fst (sys host c s))]. split; [apply sys_trace |].
  unfold sys. destruct (host (fst s) c) as [r w'] eqn:E. simpl.
  exists w'. split; [exact E | reflexivity].
Qed.

Lemma faithful_bind {A B} (m : M W A) (f : A -> M W B) :
  faithful host m -> (forall a, faithful host (f a)) ->
  faithful host (bind m f).
Proof.
  intros Hm Hf s. destruct (Hm s) as (d1 & T1 & R1).
  unfold bind. destruct (m s) as [[x | a] s1]; simpl in *.
  - exists d1. split; assumption.
  - destruct (Hf a s1) as (d2 & T2 & R2).
    exists (d1 ++ d2). split.
    + etransitivity; [exact T2 |]. rewrite T1. symmetry. apply app_assoc.
    + exact (host_run_app _ _ _ _ _ R1 R2).
Qed.

Lemma faithful_for_each {A S} (body : A -> S -> M W S) (xs : list A) :
  (forall x acc, faithful host (body x acc)) ->
  forall acc, faithful host (for_each xs body acc).
Proof.
  intros Hb. induction xs as [| x xs IH]; intros acc; simpl.
  - apply faithful_ret.
  - apply faithful_bind; [apply Hb | exact IH].
Qed.

Lemma answered_not_failed x (d : list event) :
  Forall answered d -> failed_with x d -> False.
Proof.
  intros F (pre & c & -> & _). apply Forall_app in F. destruct F as [_ F].
  inversion F as [| ? ? H]. exact H.
Qed.

Lemma strict_ret {A} (a : A) : strict (ret a : M W A).
Proof. intros s. exists []. simpl. rewrite app_nil_r. auto. Qed.

Lemma strict_sys c : strict (sys host c).
Proof.
  intros s. exists [(c, fst (sys host c s))]. split; [apply sys_trace |].
  destruct (fst (sys host c s)) as [x | v].
  - exists [], c. split; [reflexivity | constructor].
  - constructor; [exact I | constructor].
Qed.

Lemma strict_bind {A B} (m : M W A) (f : A -> M W B) :
  strict m -> (forall a, strict (f a)) -> strict (bind m f).
Proof.
  intros Hm Hf s. destruct (Hm s) as (d1 & T1 & O1).
  unfold bind. destruct (m s) as [[x | a] s1]; simpl in *.
  - exists d1. split; assumption.
  - destruct (Hf a s1) as (d2 & T2 & O2).
    exists (d1 ++ d2). split.
    + etransitivity; [exact T2 |]. rewrite T1. symmetry. apply app_assoc.
    + destruct (fst (f a s1)) as [x | b].
      * destruct O2 as (pre & c & -> & O2). exists (d1 ++ pre), c.
        rewrite app_assoc. split; [reflexivity |].
        apply Forall_app. split; assumption.
      * apply Forall_app. split; assumption.
Qed.

Lemma strict_bind_lift {A B} (r : result A) (f : A -> M W B) a :
  r = inr a -> strict (f a) -> strict (bind (lift r) f).
Proof. intros -> H. exact H. Qed.

Lemma strict_for_each {A S} (body : A -> S -> M W S) (xs : list A) :
  (forall x, In x xs -> forall acc, strict (body x acc)) ->
  forall acc, strict (for_each xs body acc).
Proof.
  induction xs as [| x xs IH]; intros Hb acc; simpl.
  - apply strict_ret.
  - apply strict_bind; [apply Hb; left; reflexivity |].
    apply IH. intros y Hy. apply Hb. right. exact Hy.
Qed.

(** What a strict script does with the segment it added to the trace. *)
Lemma strict_outcome {A} (m : M W A) s d :
  strict m ->
  snd (snd (m s)) = snd s ++ d ->
  (forall x, fst (m s) = inl x -> failed_with x d) /\
  (Forall answered d -> exists a, fst (m s) = inr a).
Proof.
  intros Hs T. destruct (Hs s) as (d' & T' & O).
  assert (d' = d) as -> by (apply (app_inv_head (snd s)); congruence).
  destruct (fst (m s)) as [y | a].
  - split; [intros x [= <-]; exact O |].
    intros F. destruct (answered_not_failed y d F O).
  - split; [discriminate | intros _; exists a; reflexivity].
Qed.

Lemma faithful_at {A} (m : M W A) s d :
  faithful host m ->
  snd (snd (m s)) = snd s ++ d ->
  host_run host (fst s) d (fst (snd (m s))).
Proof.
  intros Hf T. destruct (Hf s) as (d' & T' & R).
  assert (d' = d) as -> by (apply (app_inv_head (snd s)); congruence).
  exact R.
Qed.

(** A script that returns what another returns, transformed. *)
Lemma bind_ret_run {A B} (m : M W A) (f : A -> B) s :
  bind m (fun a => ret (f a)) s
  = (match fst (m s) with inl x => inl x | inr a => inr (f a) end,
     snd (m s)).
Proof. unfold bind. destruct (m s) as [[x | a] s1]; reflexivity. Qed.

End EffectFacts.

(** ** The stored-procedure orchestrator *)

Lemma nonempty_declared {A} (params : option pydict) (f : pydict -> A) :
  match nonempty params with Some d => f d | None => f [] end
  = f (declared params).
Proof. destruct params as [[| kv d] |]; reflexivity. Qed.

(** *** Dictionaries *)

Lemma dict_get_in (d : pydict) (kv : string * pyval) :
  NoDup (dict_keys d) -> In kv d -> dict_get d (fst kv) = inr (snd kv).
Proof.
  induction d as [| [k v] d IH]; simpl; intros ND Hin; [contradiction |].
  inversion ND as [| ? ? Hk ND']; subst.
  destruct Hin as [<- | Hin]; simpl.
  - rewrite String.eqb_refl. reflexivity.
  - destruct (String.eqb_spec k (fst kv)) as [-> | _].
    + exfalso. apply Hk. apply in_map. exact Hin.
    + apply IH; assumption.
Qed.

Lemma in_calls_decode call (d l : pydict) :
  (forall kv, In kv l -> dict_get d (fst kv) = inr (snd kv)) ->
  forall ins, decode l = Some ins ->
  flat_map (in_calls call d) (dict_keys l) = map (reg_in call) ins.
Proof.
  induction l as [| kv l IH]; simpl; intros Hget ins Hdec.
  - injection Hdec as <-. reflexivity.
  - destruct (decode_entry kv) as [e |] eqn:De; [| discriminate].
    destruct (decode l) as [es |]; [| discriminate].
    injection Hdec as <-. simpl.
    rewrite (IH (fun kv' H => Hget kv' (or_intror H)) es eq_refl).
    f_equal. unfold in_calls. rewrite (Hget kv (or_introl eq_refl)).
    unfold decode_entry in De.
    destruct (snd kv) as [| | | | [| t [| v rest]] | | | |]; try discriminate.
    injection De as <-. reflexivity.
Qed.

Lemma out_calls_declared call (d l : pydict) :
  (forall kv, In kv l -> dict_get d (fst kv) = inr (snd kv)) ->
  flat_map (out_calls call d) (dict_keys l) = map (reg_out call) l.
Proof.
  induction l as [| kv l IH]; simpl; intros Hget; [reflexivity |].
  rewrite (IH (fun kv' H => Hget kv' (or_intror H))).
  unfold out_calls. rewrite (Hget kv (or_introl eq_refl)). reflexivity.
Qed.

Lemma dict_get_set (d : pydict) k v k' :
  dict_get (dict_set d k v) k'
  = if (k =? k')%string then inr v else dict_get d k'.
Proof.
  induction d as [| [k0 v0] d IH]; simpl.
  - destruct (k =? k')%string; reflexivity.
  - destruct (String.eqb_spec k0 k) as [-> | Hne]; simpl.
    + destruct (k =? k')%string; reflexivity.
    + rewrite IH. destruct (String.eqb_spec k0 k') as [-> | _]; [| reflexivity].
      destruct (String.eqb_spec k k') as [-> | _]; [contradiction | reflexivity].
Qed.

Lemma dict_set_keys (d : pydict) k v k' :
  In k' (dict_keys (dict_set d k v)) <-> k' = k \/ In k' (dict_keys d).
Proof.
  induction d as [| [k0 v0] d IH]; simpl.
  - intuition.
  - destruct (String.eqb_spec k0 k) as [-> | Hne]; simpl.
    + intuition.
    + rewrite IH. intuition.
Qed.

Lemma dict_set_NoDup (d : pydict) k v :
  NoDup (dict_keys d) -> NoDup (dict_keys (dict_set d k v)).
Proof.
  induction d as [| [k0 v0] d IH]; simpl; intros ND.
  - constructor; [intros [] | constructor].
  - inversion ND as [| ? ? Hk ND']; subst.
    destruct (String.eqb_spec k0 k) as [-> | Hne]; simpl.
    + constructor; assumption.
    + constructor; [| apply IH; assumption].
      intros Hin. apply dict_set_keys in Hin. destruct Hin as [-> | Hin];
        [apply Hne; reflexivity | apply Hk; exact Hin].
Qed.

Lemma fold_store_keys (got : list (string * pyval)) : forall acc k,
  In k (dict_keys (fold_left store got acc))
  <-> In k (dict_keys acc) \/ In k (map fst got).
Proof.
  induction got as [| kv got IH]; simpl; intros acc k.
  - intuition.
  - rewrite IH. unfold store. rewrite dict_set_keys.
    intuition (subst; auto).
Qed.

Lemma fold_store_NoDup (got : list (string * pyval)) : forall acc,
  NoDup (dict_keys acc) -> NoDup (dict_keys (fold_left store got acc)).
Proof.
  induction got as [| kv got IH]; simpl; intros acc ND.
  - exact ND.
  - apply IH. apply dict_set_NoDup. exact ND.
Qed.

Lemma fold_store_other (got : list (string * pyval)) : forall acc k,
  ~ In k (map fst got) ->
  dict_get (fold_left store got acc) k = dict_get acc k.
Proof.
  induction got as [| kv got IH]; simpl; intros acc k Hk.
  - reflexivity.
  - rewrite IH by tauto. unfold store. rewrite dict_get_set.
    destruct (String.eqb_spec (fst kv) k) as [E | _]; [| reflexivity].
    exfalso. apply Hk. left. exact E.
Qed.

(** Each key that was stored holds one of the values stored for it. *)
Lemma fold_store_get (got : list (string * pyval)) : forall acc k,
  In k (map fst got) ->
  exists v, dict_get (fold_left store got acc) k = inr v /\ In (k, v) got.
Proof.
  induction got as [| kv got IH]; simpl; intros acc k Hk; [contradiction |].
  destruct (in_dec string_dec k (map fst got)) as [Hin | Hout].
  - destruct (IH (store acc kv) k Hin) as (v & Hv & Hg).
    exists v. split; [exact Hv | right; exact Hg].
  - destruct Hk as [<- | Hk]; [| contradiction].
    exists (snd kv). rewrite fold_store_other by exact Hout.
    unfold store. rewrite dict_get_set, String.eqb_refl.
    split; [reflexivity | left; destruct kv; reflexivity].
Qed.

Lemma map_fst_combine {A B} (l : list A) : forall (l' : list B),
  List.length l' = List.length l -> map fst (combine l l') = l.
Proof.
  induction l as [| a l IH]; intros [| b l'] L; simpl in *;
    try discriminate; [reflexivity |].
  f_equal. apply IH. congruence.
Qed.

Lemma readback_calls_are_readback call outs grs grv guc :
  Forall is_readback (readback_calls call outs grs grv guc).
Proof.
  unfold readback_calls.
  apply Forall_app; split;
    [| apply Forall_app; split; [| apply Forall_app; split]].
  - apply Forall_forall. intros c Hc. apply in_map_iff in Hc.
    destruct Hc as (k & <- & _). exact I.
  - destruct grs; repeat constructor.
  - destruct grv; repeat constructor.
  - destruct guc; repeat constructor.
Qed.

Lemma dict_get_key (d : pydict) k :
  In k (dict_keys d) -> exists v, dict_get d k = inr v /\ In (k, v) d.
Proof.
  induction d as [| [k0 v0] d IH]; simpl; intros Hk; [contradiction |].
  destruct (String.eqb_spec k0 k) as [-> | Hne].
  - exists v0. split; [reflexivity | left; reflexivity].
  - destruct Hk as [E | Hk]; [contradiction |].
    destruct (IH Hk) as (v & Hv & Hin). exists v. split; [exact Hv | right; exact Hin].
Qed.

Lemma decode_in (d : pydict) : forall typed kv,
  decode d = Some typed -> In kv d ->
  exists t v rest, snd kv = PSeq (t :: v :: rest).
Proof.
  induction d as [| kv0 d IH]; simpl; intros typed kv Hdec Hin; [contradiction |].
  destruct (decode_entry kv0) as [e |] eqn:De; [| discriminate].
  destruct (decode d) as [es |]; [| discriminate].
  destruct Hin as [<- | Hin]; [| exact (IH es kv eq_refl Hin)].
  unfold decode_entry in De.
  destruct (snd kv0) as [| | | | [| t [| v rest]] | | | |]; try discriminate.
  eauto.
Qed.

Section DbFacts.

Context {W : Type}.
Variable host : W -> syscall -> result pyval * W.
Variable BIT : pyval.

Ltac discipline :=
  repeat first
    [ apply disciplined_ret
    | apply disciplined_lift
    | apply disciplined_sys
    | apply disciplined_for_each; intros ? ?
    | apply disciplined_bind; [| intros ?]
    | match goal with
      | |- disciplined (match ?x with _ => _ end) => destruct x
      end ].

Lemma execute_sp_disciplined sp db tx sa ins outs gop grs grv rtc guc :
  disciplined (_execute_sp host sp db tx sa ins outs gop grs grv rtc guc).
Proof. unfold _execute_sp, register_in, register_out, read_out. discipline. Qed.

Lemma register_in_emits call d k u :
  emits (register_in host call d k u) (in_calls call d k).
Proof.
  unfold register_in, in_calls.
  apply emits_bind_lift. intros p0 ->.
  apply emits_bind_lift. intros t ->.
  apply emits_bind_lift. intros p1 [= <-].
  apply emits_bind_lift. intros v ->.
  eapply emits_eq.
  - apply emits_bind; [apply emits_sys | intros; apply emits_ret].
  - reflexivity.
Qed.

Lemma register_out_emits call d k u :
  emits (register_out host call d k u) (out_calls call d k).
Proof.
  unfold register_out, out_calls.
  apply emits_bind_lift. intros t ->.
  eapply emits_eq.
  - apply emits_bind; [apply emits_sys | intros; apply emits_ret].
  - reflexivity.
Qed.

Lemma read_out_emits call k acc :
  emits (read_out host call k acc) [getOutParamValue call k].
Proof.
  unfold read_out. eapply emits_eq.
  - apply emits_bind; [apply emits_sys | intros; apply emits_ret].
  - reflexivity.
Qed.

Lemma facet_emits (b : bool) c (r : _Result) (upd : _Result -> pyval -> _Result) :
  emits (if b then bind (sys host c) (fun v => ret (upd r v)) else ret r)
        (if b then [c] else []).
Proof.
  destruct b.
  - eapply emits_eq.
    + apply emits_bind; [apply emits_sys | intros; apply emits_ret].
    + reflexivity.
  - apply emits_ret.
Qed.

Lemma in_phase_emits call ins :
  emits (match nonempty ins with
         | Some d => for_each (dict_keys d) (register_in host call d) tt
         | None => ret tt
         end)
        (flat_map (in_calls call (declared ins)) (dict_keys (declared ins))).
Proof.
  destruct ins as [[| kv d] |]; cbn [nonempty declared].
  - apply emits_ret.
  - apply emits_for_each. intros k u. apply register_in_emits.
  - apply emits_ret.
Qed.

Lemma out_phase_emits call outs :
  emits (match nonempty outs with
         | Some d => for_each (dict_keys d) (register_out host call d) tt
         | None => ret tt
         end)
        (flat_map (out_calls call (declared outs)) (dict_keys (declared outs))).
Proof.
  destruct outs as [[| kv d] |]; cbn [nonempty declared].
  - apply emits_ret.
  - apply emits_for_each. intros k u. apply register_out_emits.
  - apply emits_ret.
Qed.

Lemma return_phase_emits call (grv : bool) rtc :
  emits (if grv
         then bind (sys host (registerReturnParam call rtc)) (fun _ => ret tt)
         else ret tt)
        (if grv then [registerReturnParam call rtc] else []).
Proof.
  destruct grv.
  - eapply emits_eq.
    + apply emits_bind; [apply emits_sys | intros; apply emits_ret].
    + reflexivity.
  - apply emits_ret.
Qed.

Lemma read_phase_emits call outs acc :
  emits (match nonempty outs with
         | Some d => for_each (dict_keys d) (read_out host call) acc
         | None => ret acc
         end)
        (map (getOutParamValue call) (dict_keys (declared outs))).
Proof.
  destruct outs as [[| kv d] |]; cbn [nonempty declared].
  - apply emits_ret.
  - eapply emits_eq.
    + apply emits_for_each with (g := fun k => [getOutParamValue call k]).
      intros k a. apply read_out_emits.
    + induction (dict_keys (kv :: d)) as [| k ks IH]; simpl; congruence.
  - apply emits_ret.
Qed.

(** After the call object is there, an invocation makes the registration
    calls, the execution and the read-back calls, in this order, up to the
    point where it raises, if it does. *)
Lemma execute_sp_emits sp db tx sa ins outs gop grs grv rtc guc s :
  exists d,
    snd (snd (_execute_sp host sp db tx sa ins outs gop grs grv rtc guc s))
    = snd s ++ d /\
    match fst (host (fst s) (createSProcCall sp db tx sa)) with
    | inl x =>
        calls d = [createSProcCall sp db tx sa] /\
        fst (_execute_sp host sp db tx sa ins outs gop grs grv rtc guc s) = inl x
    | inr call =>
        let l := createSProcCall sp db tx sa
                 :: registration_calls call ins outs grv rtc
                 ++ execSProcCall call
                 :: readback_calls call outs grs grv guc in
        is_prefix (calls d) l /\
        (forall r,
            fst (_execute_sp host sp db tx sa ins outs gop grs grv rtc guc s) = inr r ->
            calls d = l)
    end.
Proof.
  unfold _execute_sp.
  apply emits_bind_sys
    with (l := fun call => registration_calls call ins outs grv rtc
                           ++ execSProcCall call
                           :: readback_calls call outs grs grv guc).
  intros call. eapply emits_eq.
  - eapply emits_bind; [apply in_phase_emits | intros _].
    eapply emits_bind; [apply out_phase_emits | intros _].
    eapply emits_bind; [apply return_phase_emits | intros _].
    eapply emits_bind; [apply emits_sys | intros _].
    eapply emits_bind; [apply read_phase_emits | intros _out_params].
    eapply emits_bind;
      [instantiate (1 := []); destruct gop; apply emits_ret | intros r1].
    eapply emits_bind; [apply facet_emits | intros r2].
    eapply emits_bind; [apply facet_emits | intros r3].
    eapply emits_bind; [apply facet_emits | intros r4].
    apply emits_ret.
  - unfold registration_calls, readback_calls.
    rewrite <- !app_assoc, app_nil_r. reflexivity.
Qed.

Lemma in_phase_disciplined call ins :
  disciplined (match nonempty ins with
               | Some d => for_each (dict_keys d) (register_in host call d) tt
               | None => ret tt
               end).
Proof. unfold register_in. discipline. Qed.

Lemma out_phase_disciplined call outs :
  disciplined (match nonempty outs with
               | Some d => for_each (dict_keys d) (register_out host call d) tt
               | None => ret tt
               end).
Proof. unfold register_out. discipline. Qed.

Lemma return_phase_disciplined call (grv : bool) rtc :
  disciplined (if grv
               then bind (sys host (registerReturnParam call rtc)) (fun _ => ret tt)
               else ret tt).
Proof. discipline. Qed.

Lemma read_loop_returns call keys : forall acc s outd s',
  for_each keys (read_out host call) acc s = (inr outd, s') ->
  exists vs,
    List.length vs = List.length keys /\
    snd s' = snd s ++ map (out_event call) (combine keys vs) /\
    outd = fold_left store (combine keys vs) acc.
Proof.
  induction keys as [| k keys IH]; simpl; intros acc s outd s' H.
  - apply ret_returns in H as [-> ->]. exists []. simpl.
    rewrite app_nil_r. auto.
  - apply bind_returns in H as (acc1 & s1 & Hk & H).
    unfold read_out in Hk.
    apply bind_returns in Hk as (v & s0 & Hv & Hk).
    apply sys_returns in Hv as [_ Tv].
    apply ret_returns in Hk as [-> ->].
    apply IH in H as (vs & L & T & ->).
    exists (v :: vs). simpl. split; [congruence |]. split; [| reflexivity].
    rewrite T, Tv, <- app_assoc. reflexivity.
Qed.

Lemma read_phase_returns call outs acc s outd s' :
  match nonempty outs with
  | Some d => for_each (dict_keys d) (read_out host call) acc
  | None => ret acc
  end s = (inr outd, s') ->
  exists vs,
    List.length vs = List.length (dict_keys (declared outs)) /\
    snd s' = snd s ++
             map (out_event call) (combine (dict_keys (declared outs)) vs) /\
    outd = fold_left store (combine (dict_keys (declared outs)) vs) acc.
Proof.
  destruct outs as [[| kv d] |]; cbn [nonempty declared]; intros H.
  - apply ret_returns in H as [-> ->]. exists []. simpl.
    rewrite app_nil_r. auto.
  - apply read_loop_returns in H. exact H.
  - apply ret_returns in H as [-> ->]. exists []. simpl.
    rewrite app_nil_r. auto.
Qed.

Lemma facet_returns (b : bool) c (r : _Result)
    (upd : _Result -> pyval -> _Result) s r' s' :
  (if b then bind (sys host c) (fun v => ret (upd r v)) else ret r) s
  = (inr r', s') ->
  if b
  then exists v, r' = upd r v /\ snd s' = snd s ++ [(c, inr v)]
  else r' = r /\ snd s' = snd s.
Proof.
  destruct b; intros H.
  - apply bind_returns in H as (v & s1 & Hv & H).
    apply sys_returns in Hv as [_ Tv].
    apply ret_returns in H as [-> ->]. exists v. auto.
  - apply ret_returns in H as [-> ->]. auto.
Qed.

(** What an invocation that returns has done, and what it returns. *)
Lemma execute_sp_returns sp db tx sa ins outs gop grs grv rtc guc s r s' :
  _execute_sp host sp db tx sa ins outs gop grs grv rtc guc s = (inr r, s') ->
  exists call d_reg x vs,
    let got := combine (dict_keys (declared outs)) vs in
    List.length vs = List.length (dict_keys (declared outs)) /\
    snd s' =
      snd s ++
      (createSProcCall sp db tx sa, inr call) :: d_reg ++
      (execSProcCall call, inr x) :: map (out_event call) got ++
      (if grs then [(getResultSet call, inr (result_set r))] else []) ++
      (if grv then [(getReturnValue call, inr (return_value r))] else []) ++
      (if guc then [(getUpdateCount call, inr (update_count r))] else []) /\
    calls d_reg = registration_calls call ins outs grv rtc /\
    Forall answered d_reg /\
    output_params r = (if gop then PDict (fold_left store got []) else PNone) /\
    (grs = false -> result_set r = PNone) /\
    (grv = false -> return_value r = PNone) /\
    (guc = false -> update_count r = PNone).
Proof.
  intros H. unfold _execute_sp in H.
  apply bind_returns in H as (call & s1 & H1 & H).
  apply sys_returns in H1 as [_ T1].
  apply bind_returns in H as (u1 & s2 & H2 & H).
  apply (returns_all _ _ _ _ _ (in_phase_emits call ins)
                     (in_phase_disciplined call ins)) in H2
    as (d_in & T2 & C2 & A2).
  apply bind_returns in H as (u2 & s3 & H3 & H).
  apply (returns_all _ _ _ _ _ (out_phase_emits call outs)
                     (out_phase_disciplined call outs)) in H3
    as (d_out & T3 & C3 & A3).
  apply bind_returns in H as (u3 & s4 & H4 & H).
  apply (returns_all _ _ _ _ _ (return_phase_emits call grv rtc)
                     (return_phase_disciplined call grv rtc)) in H4
    as (d_ret & T4 & C4 & A4).
  apply bind_returns in H as (x & s5 & H5 & H).
  apply sys_returns in H5 as [_ T5].
  apply bind_returns in H as (outd & s6 & H6 & H).
  apply read_phase_returns in H6 as (vs & L & T6 & ->).
  apply bind_returns in H as (r1 & s7 & H7 & H).
  assert (r1 = (if gop
                then set_output_params new_Result
                       (PDict (fold_left store
                                 (combine (dict_keys (declared outs)) vs) []))
                else new_Result) /\ s7 = s6) as [-> ->].
  { destruct gop; apply ret_returns in H7; exact H7. }
  apply bind_returns in H as (r2 & s8 & H8 & H).
  apply facet_returns in H8.
  apply bind_returns in H as (r3 & s9 & H9 & H).
  apply facet_returns in H9.
  apply bind_returns in H as (r4 & s10 & H10 & H).
  apply facet_returns in H10.
  apply ret_returns in H as [-> ->].
  exists call, (d_in ++ d_out ++ d_ret), x, vs. cbv zeta.
  split; [exact L |]. split.
  { destruct grs, grv, guc;
      repeat match goal with
             | H : exists _, _ |- _ => destruct H as (? & -> & ?)
             | H : _ /\ _ |- _ => destruct H as [-> ?]
             end;
      destruct gop; simpl;
      repeat match goal with
             | H : snd _ = _ |- _ => rewrite H
             end;
      rewrite <- ?app_assoc; simpl; rewrite <- ?app_assoc; simpl;
      rewrite ?app_nil_r; reflexivity. }
  split.
  { unfold registration_calls, calls. rewrite !map_app.
    f_equal; [exact C2 | f_equal; [exact C3 | exact C4]]. }
  split.
  { apply Forall_app; split; [| apply Forall_app; split]; assumption. }
  destruct grs, grv, guc;
    repeat match goal with
           | H : exists _, _ |- _ => destruct H as (? & -> & ?)
           | H : _ /\ _ |- _ => destruct H as [-> ?]
           end;
    destruct gop; simpl; repeat split; intros; congruence.
Qed.

Ltac faithfulness :=
  repeat first
    [ apply faithful_ret
    | apply faithful_lift
    | apply faithful_sys
    | apply faithful_for_each; intros ? ?
    | apply faithful_bind; [| intros ?]
    | match goal with
      | |- faithful _ (match ?x with _ => _ end) => destruct x
      end ].

Lemma execute_sp_faithful sp db tx sa ins outs gop grs grv rtc guc :
  faithful host (_execute_sp host sp db tx sa ins outs gop grs grv rtc guc).
Proof. unfold _execute_sp, register_in, register_out, read_out. faithfulness. Qed.

Lemma register_in_strict call (d : pydict) typed k u :
  decode d = Some typed -> In k (dict_keys d) ->
  strict (register_in host call d k u).
Proof.
  intros Hdec Hk. destruct (dict_get_key d k Hk) as (p & Hget & Hin).
  destruct (decode_in d typed (k, p) Hdec Hin) as (t & v & rest & Hp).
  simpl in Hp. subst p. unfold register_in.
  apply (strict_bind_lift _ _ _ Hget).
  apply (strict_bind_lift _ _ t eq_refl).
  apply (strict_bind_lift _ _ _ Hget).
  apply (strict_bind_lift _ _ v eq_refl).
  apply strict_bind; [apply strict_sys | intros; apply strict_ret].
Qed.

Lemma register_out_strict call (d : pydict) k u :
  In k (dict_keys d) -> strict (register_out host call d k u).
Proof.
  intros Hk. destruct (dict_get_key d k Hk) as (t & Hget & _).
  unfold register_out. apply (strict_bind_lift _ _ _ Hget).
  apply strict_bind; [apply strict_sys | intros; apply strict_ret].
Qed.

Lemma facet_strict (b : bool) c (r : _Result)
    (upd : _Result -> pyval -> _Result) :
  strict (if b then bind (sys host c) (fun v => ret (upd r v)) else ret r).
Proof.
  destruct b; [| apply strict_ret].
  apply strict_bind; [apply strict_sys | intros; apply strict_ret].
Qed.

(** With input entries that all hold a type tag and a value, an invocation
    raises only what the host raised. *)
Lemma execute_sp_strict sp db tx sa ins outs gop grs grv rtc guc typed :
  decode (declared ins) = Some typed ->
  strict (_execute_sp host sp db tx sa ins outs gop grs grv rtc guc).
Proof.
  intros Hdec. unfold _execute_sp.
  apply strict_bind; [apply strict_sys | intros call].
  apply strict_bind.
  { destruct ins as [[| kv d] |]; cbn [nonempty declared] in *;
      try apply strict_ret.
    apply strict_for_each. intros k Hk u.
    exact (register_in_strict call (kv :: d) typed k u Hdec Hk). }
  intros _. apply strict_bind.
  { destruct outs as [[| kv d] |]; cbn [nonempty]; try apply strict_ret.
    apply strict_for_each. intros k Hk u.
    exact (register_out_strict call (kv :: d) k u Hk). }
  intros _. apply strict_bind.
  { destruct grv; [| apply strict_ret].
    apply strict_bind; [apply strict_sys | intros; apply strict_ret]. }
  intros _. apply strict_bind; [apply strict_sys | intros _].
  apply strict_bind.
  { destruct outs as [[| kv d] |]; cbn [nonempty]; try apply strict_ret.
    apply strict_for_each. intros k Hk acc. unfold read_out.
    apply strict_bind; [apply strict_sys | intros; apply strict_ret]. }
  intros od. apply strict_bind; [destruct gop; apply strict_ret | intros r1].
  apply strict_bind; [apply facet_strict | intros r2].
  apply strict_bind; [apply facet_strict | intros r3].
  apply strict_bind; [apply facet_strict | intros r4].
  apply strict_ret.
Qed.

(** All that is known of a run of the orchestrator: the segment it adds to
    the trace is what the host answered; a host exception is the last event
    and is raised; with well-formed input entries nothing else is raised;
    and a run that returns was answered throughout and returns what the
    read-back calls were answered. *)
Lemma execute_sp_outcome sp db tx sa ins outs gop grs grv rtc guc (s : state W) :
  let run := _execute_sp host sp db tx sa ins outs gop grs grv rtc guc s in
  exists d,
    snd (snd run) = snd s ++ d /\
    host_run host (fst s) d (fst (snd run)) /\
    (forall c x, In ((c, inl x) : event) d ->
       fst run = inl x /\
       exists pre, d = pre ++ [(c, inl x)] /\ Forall answered pre) /\
    (forall typed, decode (declared ins) = Some typed ->
       (forall x, fst run = inl x -> failed_with x d) /\
       (Forall answered d -> exists r, fst run = inr r)) /\
    (forall r, fst run = inr r ->
       Forall answered d /\
       exists call d_reg x vs,
         let got := combine (dict_keys (declared outs)) vs in
         List.length vs = List.length (dict_keys (declared outs)) /\
         d = (createSProcCall sp db tx sa, inr call) :: d_reg ++
             (execSProcCall call, inr x) :: map (out_event call) got ++
             (if grs then [(getResultSet call, inr (result_set r))] else []) ++
             (if grv then [(getReturnValue call, inr (return_value r))] else []) ++
             (if guc then [(getUpdateCount call, inr (update_count r))] else []) /\
         calls d_reg = registration_calls call ins outs grv rtc /\
         output_params r
         = (if gop then PDict (fold_left store got []) else PNone) /\
         (grs = false -> result_set r = PNone) /\
         (grv = false -> return_value r = PNone) /\
         (guc = false -> update_count r = PNone)).
Proof.
  intros run.
  destruct (disciplined_failure
              (_execute_sp host sp db tx sa ins outs gop grs grv rtc guc) s
              (execute_sp_disciplined sp db tx sa ins outs gop grs grv rtc guc))
    as (d & T & Hfail & Hok).
  exists d. split; [exact T |].
  split; [apply faithful_at; [apply execute_sp_faithful | exact T] |].
  split; [exact Hfail |]. split.
  { intros typed Hdec. apply strict_outcome; [| exact T].
    exact (execute_sp_strict sp db tx sa ins outs gop grs grv rtc guc typed Hdec). }
  intros r Hr. split; [exact (Hok r Hr) |].
  subst run.
  destruct (_execute_sp host sp db tx sa ins outs gop grs grv rtc guc s)
    as [res s'] eqn:E. simpl in Hr, T. subst res.
  apply execute_sp_returns in E
    as (call & d_reg & x & vs & L & T' & C & _ & Hop & Hrs & Hrv & Huc).
  rewrite T' in T. apply app_inv_head in T. subst d.
  exists call, d_reg, x, vs. cbv zeta. repeat (split; [assumption || reflexivity |]).
  assumption.
Qed.

(** C1: an invocation of [_execute_sp] first registers one input parameter
    per entry of the input map, in the map's iteration order and with the
    entry's type tag and value, then one output parameter per declared
    output with its name and type tag, then a return parameter of the given
    type code exactly when the return value was requested, and only then
    executes the call, once; what follows are read-back calls only.  The
    calls are put to the host and the trace holds its answers.  The run
    stops short of this sequence only where the host raised: when the host
    answers every call, the run returns and has made all of them. *)
Theorem execute_sp_registers_then_executes
    sp db tx sa in_params out_params gop grs grv rtc guc
    (ins : list in_entry) (s : state W) (call : pyval) (w1 : W) :
  decode (declared in_params) = Some ins ->
  NoDup (dict_keys (declared in_params)) ->
  NoDup (dict_keys (declared out_params)) ->
  host (fst s) (createSProcCall sp db tx sa) = (inr call, w1) ->
  let run := _execute_sp host sp db tx sa in_params out_params
                         gop grs grv rtc guc s in
  let registrations :=
    map (reg_in call) ins ++
    map (reg_out call) (declared out_params) ++
    (if grv then [registerReturnParam call rtc] else []) in
  let readback := readback_calls call out_params grs grv guc in
  let protocol :=
    createSProcCall sp db tx sa
    :: registrations ++ execSProcCall call :: readback in
  exists d,
    snd (snd run) = snd s ++ d /\
    host_run host (fst s) d (fst (snd run)) /\
    is_prefix (calls d) protocol /\
    (forall r, fst run = inr r -> calls d = protocol) /\
    (forall x, fst run = inl x -> failed_with x d) /\
    (Forall answered d -> exists r, fst run = inr r /\ calls d = protocol) /\
    Forall is_registration registrations /\
    Forall is_readback readback.
Proof.
  intros Hdec NDi NDo Hcreate run registrations readback protocol.
  destruct (execute_sp_emits sp db tx sa in_params out_params
                             gop grs grv rtc guc s) as (d & T & H).
  rewrite Hcreate in H. cbn [fst] in H.
  assert (registration_calls call in_params out_params grv rtc = registrations)
    as Hreg.
  { unfold registration_calls, registrations.
    rewrite (in_calls_decode call _ _ (fun kv => dict_get_in _ kv NDi) ins Hdec).
    rewrite (out_calls_declared call _ _ (fun kv => dict_get_in _ kv NDo)).
    reflexivity. }
  rewrite Hreg in H. destruct H as [Hpre Hall].
  destruct (strict_outcome _ s d
              (execute_sp_strict sp db tx sa in_params out_params
                                 gop grs grv rtc guc ins Hdec) T)
    as [Hraise Hlive].
  exists d. split; [exact T |].
  split; [apply faithful_at; [apply execute_sp_faithful | exact T] |].
  split; [exact Hpre |]. split; [exact Hall |]. split; [exact Hraise |].
  split.
  { intros F. destruct (Hlive F) as (r & Hr). exists r.
    split; [exact Hr | exact (Hall r Hr)]. }
  split.
  - unfold registrations.
    apply Forall_app; split; [| apply Forall_app; split].
    + apply Forall_forall. intros c Hc. apply in_map_iff in Hc.
      destruct Hc as (e & <- & _). exact I.
    + apply Forall_forall. intros c Hc. apply in_map_iff in Hc.
      destruct Hc as (e & <- & _). exact I.
    + destruct grv; repeat constructor.
  - apply readback_calls_are_readback.
Qed.

(** C2: the bundle an invocation returns has a field other than [None]
    only for a facet whose flag was set; when the output parameters were
    requested, the field is a dict whose keys are exactly the keys of the
    declared output-parameter map. *)
Theorem execute_sp_populates_only_requested
    sp db tx sa ins outs gop grs grv rtc guc (s : state W) r s' :
  _execute_sp host sp db tx sa ins outs gop grs grv rtc guc s = (inr r, s') ->
  (gop = false -> output_params r = PNone) /\
  (grs = false -> result_set r = PNone) /\
  (grv = false -> return_value r = PNone) /\
  (guc = false -> update_count r = PNone) /\
  (gop = true ->
   exists d,
     output_params r = PDict d /\
     NoDup (dict_keys d) /\
     forall k, In k (dict_keys d) <-> In k (dict_keys (declared outs))).
Proof.
  intros H. apply execute_sp_returns in H
    as (call & d_reg & x & vs & L & _ & _ & _ & Hop & Hrs & Hrv & Huc).
  split; [intros ->; exact Hop |]. repeat (split; [assumption |]).
  intros ->. eexists. split; [exact Hop |]. split.
  - apply fold_store_NoDup. constructor.
  - intros k. rewrite fold_store_keys, (map_fst_combine _ _ L). simpl. tauto.
Qed.

(** C5: the calls of an invocation are put to the host and the trace holds
    its answers.  When the host raises on a call, that call is the last one
    made (it is not retried and nothing is called after it) and the
    invocation raises the very same exception.  An invocation that returns
    was answered at every call, from the creation of the call object on,
    and its bundle holds, for every requested facet, what the host answered
    for that call object: a value for each declared output parameter, the
    result set, the return value and the update count.  With input entries
    that all hold a type tag and a value there is nothing in between: the
    invocation raises only what the host raised on its last call, and
    returns whenever the host answered every call. *)
Theorem execute_sp_failure_propagates
    sp db tx sa ins outs gop grs grv rtc guc (s : state W) :
  let run := _execute_sp host sp db tx sa ins outs gop grs grv rtc guc s in
  exists d,
    snd (snd run) = snd s ++ d /\
    host_run host (fst s) d (fst (snd run)) /\
    (forall c x, In ((c, inl x) : event) d ->
       fst run = inl x /\
       exists pre, d = pre ++ [(c, inl x)] /\ Forall answered pre) /\
    (forall r, fst run = inr r ->
       Forall answered d /\
       exists call rest,
         d = (createSProcCall sp db tx sa, inr call) :: rest /\
         (gop = true ->
          exists od,
            output_params r = PDict od /\
            forall k, In k (dict_keys (declared outs)) ->
              exists v, dict_get od k = inr v /\
                        In (getOutParamValue call k, inr v) rest) /\
         (grs = true -> In (getResultSet call, inr (result_set r)) rest) /\
         (grv = true -> In (getReturnValue call, inr (return_value r)) rest) /\
         (guc = true -> In (getUpdateCount call, inr (update_count r)) rest)) /\
    (forall typed, decode (declared ins) = Some typed ->
       (forall x, fst run = inl x -> failed_with x d) /\
       (Forall answered d -> exists r, fst run = inr r)).
Proof.
  intros run.
  destruct (execute_sp_outcome sp db tx sa ins outs gop grs grv rtc guc s)
    as (d & T & R & Hfail & Hstrict & Hret).
  exists d. split; [exact T |]. split; [exact R |]. split; [exact Hfail |].
  split; [| exact Hstrict].
  intros r Hr. destruct (Hret r Hr) as (Hok & call & d_reg & x & vs & H).
  cbv zeta in H. destruct H as (L & -> & _ & Hop & _).
  split; [exact Hok |]. exists call. eexists. split; [reflexivity |].
  split; [| split; [| split]].
  - intros ->. eexists. split; [exact Hop |]. intros k Hk.
    rewrite <- (map_fst_combine _ _ L) in Hk.
    destruct (fold_store_get _ [] k Hk) as (v & Hv & Hin).
    exists v. split; [exact Hv |].
    apply in_or_app. right. right. apply in_or_app. left.
    change (getOutParamValue call k, inr v) with (out_event call (k, v)).
    apply in_map. exact Hin.
  - intros ->. apply in_or_app. right. right.
    apply in_or_app. right. left. reflexivity.
  - intros ->. apply in_or_app. right. right.
    apply in_or_app. right. apply in_or_app. right. left. reflexivity.
  - intros ->. apply in_or_app. right. right.
    apply in_or_app. right. apply in_or_app. right.
    apply in_or_app. right. left. reflexivity.
Qed.

Lemma in_calls_register call d keys c :
  In c (flat_map (in_calls call d) keys) ->
  exists k t v, c = registerInParam call k t v.
Proof.
  intros Hin. apply in_flat_map in Hin. destruct Hin as (k & _ & Hin).
  unfold in_calls in Hin.
  destruct (dict_get d k) as [| p]; [contradiction |].
  destruct (getitem p 0) as [| t]; [contradiction |].
  destruct (getitem p 1) as [| v]; [contradiction |].
  destruct Hin as [<- | []]. eauto.
Qed.

(** C6: [execute_non_query] asks the orchestrator for the update count
    only: after the call is created, its inputs registered and the call
    executed, the one read-back call is [getUpdateCount] on the call object
    the host gave, and what is returned is exactly what the host answered
    to it; so it is -1 when the host reports -1, its value for "not
    applicable", and the reported count otherwise.  With input entries that
    all hold a type tag and a value, it raises only what the host raised
    and returns whenever the host answered every call. *)
Theorem execute_non_query_returns_reported_count
    sp params tx (s : state W) :
  let run := execute_non_query host sp params tx s in
  exists d,
    snd (snd run) = snd s ++ d /\
    host_run host (fst s) d (fst (snd run)) /\
    (forall v, fst run = inr v ->
       exists call mid w_pre,
         d = (createSProcCall sp EmptyString tx false, inr call)
             :: mid ++ [(getUpdateCount call, inr v)] /\
         calls mid =
           flat_map (in_calls call (declared params))
                    (dict_keys (declared params))
           ++ [execSProcCall call] /\
         host_run host (fst s)
                  ((createSProcCall sp EmptyString tx false, inr call) :: mid)
                  w_pre /\
         host w_pre (getUpdateCount call) = (inr v, fst (snd run)) /\
         (forall call' n,
             In (getUpdateCount call', inr (PInt n)) d -> v = PInt n)) /\
    (forall typed, decode (declared params) = Some typed ->
       (forall x, fst run = inl x -> failed_with x d) /\
       (Forall answered d -> exists v, fst run = inr v)).
Proof.
  intros run.
  destruct (execute_sp_outcome sp EmptyString tx false params None
                               false false false PNone true s)
    as (d & T & R & _ & Hstrict & Hret).
  assert (run = (match fst (_execute_sp host sp EmptyString tx false params None
                                        false false false PNone true s) with
                 | inl x => inl x
                 | inr r => inr (update_count r)
                 end,
                 snd (_execute_sp host sp EmptyString tx false params None
                                  false false false PNone true s))) as Hrun
    by apply bind_ret_run.
  rewrite Hrun. cbn [fst snd].
  exists d. split; [exact T |]. split; [exact R |]. split.
  - intros v Hv.
    destruct (fst (_execute_sp host sp EmptyString tx false params None
                               false false false PNone true s))
      as [y | r]; [discriminate |].
    injection Hv as <-.
    destruct (Hret r eq_refl) as (_ & call & d_reg & x & vs & H).
    cbv zeta in H. destruct H as (L & Hd & C & _).
    destruct vs; [| discriminate]. simpl in Hd.
    unfold registration_calls in C. simpl in C. rewrite app_nil_r in C.
    assert (d = ((createSProcCall sp EmptyString tx false, inr call)
                 :: d_reg ++ [(execSProcCall call, inr x)])
                ++ [(getUpdateCount call, inr (update_count r))]) as Hd'.
    { rewrite Hd. simpl. rewrite <- app_assoc. reflexivity. }
    rewrite Hd' in R. apply host_run_last in R. destruct R as (w_pre & Rpre & Rlast).
    exists call, (d_reg ++ [(execSProcCall call, inr x)]), w_pre.
    split; [exact Hd' |]. split.
    { unfold calls in *. rewrite map_app. simpl. f_equal. exact C. }
    split; [exact Rpre |]. split; [exact Rlast |].
    intros call' n Hin. rewrite Hd in Hin.
    destruct Hin as [Hin | Hin]; [discriminate |].
    apply in_app_or in Hin. destruct Hin as [Hin | [Hin | [Hin | []]]].
    + exfalso. apply (in_map fst) in Hin.
      assert (In (getUpdateCount call')
                 (flat_map (in_calls call (declared params))
                           (dict_keys (declared params)))) as Hc.
      { rewrite <- C. exact Hin. }
      apply in_calls_register in Hc. destruct Hc as (k & t & v0 & Hc).
      discriminate.
    + discriminate.
    + injection Hin as _ ->. reflexivity.
  - intros typed Hdec. destruct (Hstrict typed Hdec) as [Hraise Hlive]. split.
    + intros x Hx. apply Hraise.
      destruct (fst (_execute_sp host sp EmptyString tx false params None
                                 false false false PNone true s));
        [injection Hx as ->; reflexivity | discriminate].
    + intros F. destruct (Hlive F) as (r & ->). eexists. reflexivity.
Qed.

(** C7, as the code has it: [get_data] asks the orchestrator for the result
    set only, and what it returns is exactly what the host answered to
    [getResultSet] on the call object it gave: an empty dataset when the
    host reports an empty dataset, [None] when the host reports [None].
    With input entries that all hold a type tag and a value, it raises only
    what the host raised and returns whenever the host answered every
    call. *)
Theorem get_data_returns_reported_result_set sp params (s : state W) :
  let run := get_data host sp params s in
  exists d,
    snd (snd run) = snd s ++ d /\
    host_run host (fst s) d (fst (snd run)) /\
    (forall v, fst run = inr v ->
       exists call mid w_pre,
         d = (createSProcCall sp EmptyString PNone false, inr call)
             :: mid ++ [(getResultSet call, inr v)] /\
         calls mid =
           flat_map (in_calls call (declared params))
                    (dict_keys (declared params))
           ++ [execSProcCall call] /\
         host_run host (fst s)
                  ((createSProcCall sp EmptyString PNone false, inr call) :: mid)
                  w_pre /\
         host w_pre (getResultSet call) = (inr v, fst (snd run))) /\
    (forall typed, decode (declared params) = Some typed ->
       (forall x, fst run = inl x -> failed_with x d) /\
       (Forall answered d -> exists v, fst run = inr v)).
Proof.
  intros run.
  destruct (execute_sp_outcome sp EmptyString PNone false params None
                               false true false PNone false s)
    as (d & T & R & _ & Hstrict & Hret).
  assert (run = (match fst (_execute_sp host sp EmptyString PNone false params
                                        None false true false PNone false s) with
                 | inl x => inl x
                 | inr r => inr (result_set r)
                 end,
                 snd (_execute_sp host sp EmptyString PNone false params None
                                  false true false PNone false s))) as Hrun
    by apply bind_ret_run.
  rewrite Hrun. cbn [fst snd].
  exists d. split; [exact T |]. split; [exact R |]. split.
  - intros v Hv.
    destruct (fst (_execute_sp host sp EmptyString PNone false params None
                               false true false PNone false s))
      as [y | r]; [discriminate |].
    injection Hv as <-.
    destruct (Hret r eq_refl) as (_ & call & d_reg & x & vs & H).
    cbv zeta in H. destruct H as (L & Hd & C & _).
    destruct vs; [| discriminate]. simpl in Hd.
    unfold registration_calls in C. simpl in C. rewrite app_nil_r in C.
    assert (d = ((createSProcCall sp EmptyString PNone false, inr call)
                 :: d_reg ++ [(execSProcCall call, inr x)])
                ++ [(getResultSet call, inr (result_set r))]) as Hd'.
    { rewrite Hd. simpl. rewrite <- app_assoc. reflexivity. }
    rewrite Hd' in R. apply host_run_last in R. destruct R as (w_pre & Rpre & Rlast).
    exists call, (d_reg ++ [(execSProcCall call, inr x)]), w_pre.
    split; [exact Hd' |]. split.
    { unfold calls in *. rewrite map_app. simpl. f_equal. exact C. }
    split; [exact Rpre | exact Rlast].
  - intros typed Hdec. destruct (Hstrict typed Hdec) as [Hraise Hlive]. split.
    + intros x Hx. apply Hraise.
      destruct (fst (_execute_sp host sp EmptyString PNone false params None
                                 false true false PNone false s));
        [injection Hx as ->; reflexivity | discriminate].
    + intros F. destruct (Hlive F) as (r & ->). eexists. reflexivity.
Qed.

Lemma check_disciplined sp params : disciplined (check host BIT sp params).
Proof.
  unfold check, get_output_params, _execute_sp, register_in, register_out,
    read_out.
  discipline.
Qed.


End DbFacts.

(** ** The user gateway *)

Lemma insert_sorted_in x l e : In e (insert_sorted x l) <-> e = x \/ In e l.
Proof.
  induction l as [| y l IH]; simpl.
  - intuition.
  - destruct (x <=? y)%string; simpl; [| rewrite IH]; intuition.
Qed.

Lemma insert_sorted_NoDup x l :
  NoDup l -> ~ In x l -> NoDup (insert_sorted x l).
Proof.
  induction l as [| y l IH]; simpl; intros ND Hx.
  - constructor; [intros [] | constructor].
  - destruct (x <=? y)%string.
    + constructor; assumption.
    + inversion ND as [| ? ? Hy ND']; subst. constructor.
      * rewrite insert_sorted_in. intros [-> | Hin]; [apply Hx; auto | auto].
      * apply IH; [assumption | tauto].
Qed.

Lemma insert_sorted_HdRel a x l :
  HdRel str_le a l -> str_le a x -> HdRel str_le a (insert_sorted x l).
Proof.
  destruct l as [| y l]; simpl; intros Hd Hax.
  - constructor. exact Hax.
  - destruct (x <=? y)%string; constructor;
      [exact Hax | inversion Hd; assumption].
Qed.

Lemma insert_sorted_Sorted x l :
  Sorted str_le l -> Sorted str_le (insert_sorted x l).
Proof.
  induction l as [| y l IH]; simpl; intros Hs.
  - repeat constructor.
  - destruct (x <=? y)%string eqn:E.
    + constructor; [exact Hs | constructor; exact E].
    + inversion Hs as [| ? ? Hs' Hd]; subst. constructor.
      * apply IH. exact Hs'.
      * apply insert_sorted_HdRel; [exact Hd |].
        destruct (String.leb_total x y) as [H | H]; [congruence | exact H].
Qed.

Lemma sorted_in l e : In e (sorted l) <-> In e l.
Proof.
  induction l as [| x l IH]; simpl; [tauto |].
  rewrite insert_sorted_in, IH. intuition.
Qed.

Lemma sorted_NoDup l : NoDup l -> NoDup (sorted l).
Proof.
  induction l as [| x l IH]; simpl; intros ND; [constructor |].
  inversion ND; subst. apply insert_sorted_NoDup; [auto |].
  rewrite sorted_in. assumption.
Qed.

Lemma sorted_Sorted l : Sorted str_le (sorted l).
Proof.
  induction l as [| x l IH]; simpl; [constructor |].
  apply insert_sorted_Sorted. exact IH.
Qed.

Lemma add_in a b l : In a (add b l) <-> a = b \/ In a l.
Proof. apply set_add_iff. Qed.

Lemma add_NoDup a l : NoDup l -> NoDup (add a l).
Proof. apply set_add_nodup. Qed.

Lemma add_emails_in filter_role u emails e :
  In e (add_emails filter_role u emails)
  <-> In e emails \/ (wanted filter_role u = true /\ has_email u e).
Proof.
  unfold add_emails, wanted, has_email.
  assert (forall l acc,
    In e (fold_left
            (fun emails email =>
               if truthy filter_role
               then if py_in filter_role (getRoles u)
                    then add email emails else emails
               else add email emails) l acc)
    <-> In e acc \/
        ((if truthy filter_role then py_in filter_role (getRoles u) else true)
         = true /\ In e l)) as Hfold.
  { induction l as [| x l IH]; simpl; intros acc; [tauto |].
    rewrite IH.
    destruct (truthy filter_role); [destruct (py_in filter_role (getRoles u)) |];
      rewrite ?add_in; intuition congruence. }
  rewrite Hfold. clear Hfold.
  assert (In e (map value
                  (filter (fun ci => contactType ci =? "email") (getContactInfo u)))
          <-> exists ci, In ci (getContactInfo u) /\
                         contactType ci = "email" /\ value ci = e) as ->.
  { rewrite in_map_iff. split.
    - intros (ci & Hv & Hin). apply filter_In in Hin. destruct Hin as [Hin Ht].
      apply String.eqb_eq in Ht. eauto.
    - intros (ci & Hin & Ht & Hv). exists ci. split; [exact Hv |].
      apply filter_In. split; [exact Hin | apply String.eqb_eq; exact Ht]. }
  tauto.
Qed.

Lemma add_emails_NoDup filter_role u emails :
  NoDup emails -> NoDup (add_emails filter_role u emails).
Proof.
  unfold add_emails.
  generalize (map value
                (filter (fun ci => contactType ci =? "email") (getContactInfo u))).
  intros l. revert emails. induction l as [| x l IH]; simpl; intros acc ND.
  - exact ND.
  - apply IH.
    destruct (truthy filter_role); [destruct (py_in filter_role (getRoles u)) |];
      auto using add_NoDup.
Qed.

Lemma py_in_role role roles : py_in (PStr role) roles = true <-> In role roles.
Proof.
  simpl. rewrite existsb_exists. split.
  - intros (x & Hin & E). apply String.eqb_eq in E. subst. exact Hin.
  - intros Hin. exists role. split; [exact Hin | apply String.eqb_refl].
Qed.

Section UserFacts.

Context {W : Type}.
Variable host : W -> syscall -> result pyval * W.

Lemma sys_eq c (s : state W) r w' :
  host (fst s) c = (r, w') -> sys host c s = (r, (w', snd s ++ [(c, r)])).
Proof. unfold sys. intros ->. reflexivity. Qed.

Lemma sys_at c (w : W) tr r w' :
  host w c = (r, w') -> sys host c (w, tr) = (r, (w', tr ++ [(c, r)])).
Proof. apply (sys_eq c (w, tr)). Qed.

Lemma collect_loop filter_role (us : list User) : forall acc (s : state W),
  for_each (map PUser us) (collect_emails filter_role) acc s
  = (inr (fold_left (fun acc u => add_emails filter_role u acc) us acc), s).
Proof.
  induction us as [| u us IH]; simpl; intros acc s; [reflexivity |].
  unfold bind at 1. simpl. apply IH.
Qed.

Lemma collected_in filter_role (us : list User) e : forall acc,
  In e (fold_left (fun acc u => add_emails filter_role u acc) us acc)
  <-> In e acc \/
      exists u, In u us /\ wanted filter_role u = true /\ has_email u e.
Proof.
  induction us as [| u us IH]; simpl; intros acc.
  - split; [auto | intros [H | (u & [] & _)]; exact H].
  - rewrite IH, add_emails_in. split.
    + intros [[H | H] | (u' & Hin & H)]; eauto 6.
    + intros [H | (u' & [<- | Hin] & H)]; eauto 6.
Qed.

Lemma collected_NoDup filter_role (us : list User) : forall acc,
  NoDup acc ->
  NoDup (fold_left (fun acc u => add_emails filter_role u acc) us acc).
Proof.
  induction us as [| u us IH]; simpl; intros acc ND; [exact ND |].
  apply IH. apply add_emails_NoDup. exact ND.
Qed.

(** C4: when the host answers with the users of the source, [get_emails]
    returns a list in ascending order and without duplicates (an address
    shared by two users appears once); with no role filter it holds exactly
    the values of the "email" contact entries of all the users, and with a
    role filter exactly those of the users that hold the role. *)
Theorem get_emails_sorted_unique user_source filter_role
    (us : list User) (s : state W) w1 :
  host (fst s) (getUsers user_source) = (inr (PSeq (map PUser us)), w1) ->
  exists l,
    fst (get_emails host user_source filter_role s) = inr l /\
    Sorted str_le l /\
    NoDup l /\
    (truthy filter_role = false ->
     forall e, In e l <-> exists u, In u us /\ has_email u e) /\
    (forall role, filter_role = PStr role -> role <> EmptyString ->
     forall e, In e l <->
               exists u, In u us /\ In role (getRoles u) /\ has_email u e).
Proof.
  intros Hhost. unfold get_emails, bind.
  rewrite (sys_eq _ _ _ _ Hhost). simpl.
  rewrite collect_loop. simpl. eexists. split; [reflexivity |].
  split; [apply sorted_Sorted |].
  split; [apply sorted_NoDup, collected_NoDup; constructor |].
  split.
  - intros Hf e. rewrite sorted_in, collected_in. unfold wanted. rewrite Hf.
    split.
    + intros [[] | (u & Hin & _ & He)]. eauto.
    + intros (u & Hin & He). right. eauto.
  - intros role -> Hrole e. rewrite sorted_in, collected_in. unfold wanted.
    assert (truthy (PStr role) = true) as ->.
    { simpl. destruct (String.eqb_spec role EmptyString); [contradiction | reflexivity]. }
    split.
    + intros [[] | (u & Hin & Hr & He)]. apply py_in_role in Hr. eauto.
    + intros (u & Hin & Hr & He). right. apply py_in_role in Hr. eauto.
Qed.

(** C3, as the code has it: with a primary source name that is not empty,
    [get_user] returns the identity view of the user the primary source
    finds; when the primary source finds none and a failover name that is
    not empty is given, it returns what the failover source finds, as an
    identity view, or [None]; when the primary source finds none and there
    is no failover, it returns [None].  Not finding the user raises
    nothing. *)
Theorem get_user_primary_then_failover user_source failover
    (s : state W) name w1 ans1 w2 :
  truthy user_source = true ->
  host (fst s) getUsername = (inr name, w1) ->
  host w1 (getUser user_source name) = (inr ans1, w2) ->
  let run := get_user host user_source failover s in
  (forall u, ans1 = PUser u -> fst run = inr (Some (new_User u))) /\
  (ans1 = PNone -> truthy failover = true ->
   forall ans2 w3, host w2 (getUser failover name) = (inr ans2, w3) ->
     (forall u, ans2 = PUser u -> fst run = inr (Some (new_User u))) /\
     (ans2 = PNone -> fst run = inr None)) /\
  (ans1 = PNone -> truthy failover = false -> fst run = inr None).
Proof.
  intros Hsrc Hname Hprimary run. subst run.
  unfold get_user, bind. rewrite (sys_eq _ _ _ _ Hname), Hsrc.
  rewrite (sys_at _ _ _ _ _ Hprimary). cbn [fst snd].
  split; [| split].
  - intros u ->. reflexivity.
  - intros -> Hf ans2 w3 Hfail. cbn [truthy negb andb]. rewrite Hf.
    rewrite (sys_at _ _ _ _ _ Hfail). split.
    + intros u ->. reflexivity.
    + intros ->. reflexivity.
  - intros -> Hf. cbn [truthy negb andb]. rewrite Hf. reflexivity.
Qed.

(** C10: with a primary source name that is empty (or otherwise false),
    [get_user] makes no lookup for it: after reading the user name it
    either makes no lookup at all and returns [None], when no failover name
    is given, or makes the one lookup in the failover source and returns
    what that finds. *)
Theorem get_user_skips_empty_primary user_source failover
    (s : state W) name w1 :
  truthy user_source = false ->
  host (fst s) getUsername = (inr name, w1) ->
  let run := get_user host user_source failover s in
  (truthy failover = false ->
   run = (inr None, (w1, snd s ++ [(getUsername, inr name)]))) /\
  (truthy failover = true ->
   forall ans w2, host w1 (getUser failover name) = (ans, w2) ->
     snd run = (w2, snd s ++ [(getUsername, inr name);
                              (getUser failover name, ans)]) /\
     fst run = match ans with
               | inl x => inl x
               | inr user =>
                   if truthy user
                   then match as_user user with
                        | inr u => inr (Some (new_User u))
                        | inl x => inl x
                        end
                   else inr None
               end) /\
  (forall src u,
      In (getUser src u) (calls (snd (snd run))) ->
      In (getUser src u) (calls (snd s)) \/
      (src = failover /\ truthy failover = true)).
Proof.
  intros Hsrc Hname run. subst run.
  unfold get_user, bind. rewrite (sys_eq _ _ _ _ Hname), Hsrc.
  cbn [ret truthy negb andb fst snd].
  split; [| split].
  - intros ->. reflexivity.
  - intros -> ans w2 Hfail. rewrite (sys_at _ _ _ _ _ Hfail). cbn [fst snd].
    rewrite <- app_assoc.
    destruct ans as [x | user]; [split; reflexivity |].
    destruct (truthy user) eqn:Hu; [| split; reflexivity].
    destruct user; split; reflexivity.
  - intros src u. destruct (truthy failover) eqn:Hf.
    + destruct (host w1 (getUser failover name)) as [ans w2] eqn:Hfail.
      rewrite (sys_at _ _ _ _ _ Hfail).
      assert (forall (k : result (option _User) * state W),
                 snd (snd k) = (snd s ++ [(getUsername, inr name)])
                               ++ [(getUser failover name, ans)] ->
                 In (getUser src u) (calls (snd (snd k))) ->
                 In (getUser src u) (calls (snd s)) \/
                 src = failover /\ true = true) as Hk.
      { intros k -> Hin. unfold calls in Hin. rewrite !map_app in Hin.
        apply in_app_or in Hin. destruct Hin as [Hin | [Hin | []]].
        - apply in_app_or in Hin. destruct Hin as [Hin | [Hin | []]].
          + left. exact Hin.
          + discriminate.
        - simpl in Hin. injection Hin as <- _. right. auto. }
      apply Hk. cbn [fst snd].
      destruct ans as [x | user]; [reflexivity |].
      destruct (truthy user); [| reflexivity].
      destruct user; reflexivity.
    + simpl. intros Hin. unfold calls in Hin. rewrite map_app in Hin.
      apply in_app_or in Hin. destruct Hin as [Hin | [Hin | []]].
      * left. exact Hin.
      * discriminate.
Qed.

End UserFacts.

(** C9: for a user whose first name is [f] and last name is [l], the
    identity view's [get_full_name] is [f], one space, then [l]. *)
Theorem get_full_name_joins (user : User) (f l : string) :
  get user FirstName = Some f ->
  get user LastName = Some l ->
  get_full_name (new_User user) = inr (f ++ " " ++ l)%string.
Proof.
  intros Hf Hl. unfold get_full_name, new_User. simpl.
  rewrite Hf, Hl. reflexivity.
Qed.

(** ** The theorems at work on the demonstration host *)

Lemma execute_sp_registers_then_executes_witness :
  let in_params := Some [("a", PSeq [PInt 4; PInt 5]);
                         ("b", PSeq [PInt 12; PStr "z"])] in
  let out_params := Some [("x", PInt 4); ("y", PInt 12)] in
  let run := _execute_sp demo_host "p" "db" PNone false in_params out_params
                         true true true (PInt 4) true start in
  let protocol :=
    [createSProcCall "p" "db" PNone false;
     registerInParam (PObj 7) "a" (PInt 4) (PInt 5);
     registerInParam (PObj 7) "b" (PInt 12) (PStr "z");
     registerOutParam (PObj 7) "x" (PInt 4);
     registerOutParam (PObj 7) "y" (PInt 12);
     registerReturnParam (PObj 7) (PInt 4);
     execSProcCall (PObj 7);
     getOutParamValue (PObj 7) "x";
     getOutParamValue (PObj 7) "y";
     getResultSet (PObj 7);
     getReturnValue (PObj 7);
     getUpdateCount (PObj 7)] in
  exists d,
    snd (snd run) = snd start ++ d /\
    host_run demo_host (fst start) d (fst (snd run)) /\
    is_prefix (calls d) protocol /\
    (forall r, fst run = inr r -> calls d = protocol) /\
    (forall x, fst run = inl x -> failed_with x d) /\
    (Forall answered d -> exists r, fst run = inr r /\ calls d = protocol).
Proof.
  intros in_params out_params run protocol.
  destruct (execute_sp_registers_then_executes
              demo_host "p" "db" PNone false in_params out_params
              true true true (PInt 4) true
              [("a", (PInt 4, PInt 5)); ("b", (PInt 12, PStr "z"))]
              start (PObj 7) 1)
    as (d & T & R & P & E & Hraise & Hlive & _).
  - reflexivity.
  - repeat constructor; simpl; intuition discriminate.
  - repeat constructor; simpl; intuition discriminate.
  - reflexivity.
  - exists d. split; [exact T |]. split; [exact R |]. split; [exact P |].
    split; [exact E |]. split; [exact Hraise | exact Hlive].
Defined.

Lemma execute_sp_populates_only_requested_witness :
  let r := mk_Result (PDict [("x", PInt 42)]) PNone PNone (PInt 3) in
  (true = false -> output_params r = PNone) /\
  (false = false -> result_set r = PNone) /\
  (false = false -> return_value r = PNone) /\
  (true = false -> update_count r = PNone) /\
  (true = true ->
   exists d,
     output_params r = PDict d /\
     NoDup (dict_keys d) /\
     forall k, In k (dict_keys d)
               <-> In k (dict_keys (declared (Some [("x", PInt 4)])))).
Proof.
  exact (execute_sp_populates_only_requested
           demo_host "p" EmptyString PNone false None (Some [("x", PInt 4)])
           true false false PNone true start _ _ eq_refl).
Defined.

Lemma execute_non_query_returns_reported_count_witness :
  let run := execute_non_query demo_host "log_event" None (PStr "tx1") start in
  exists call mid w_pre,
    snd (snd run)
    = snd start ++
      (createSProcCall "log_event" EmptyString (PStr "tx1") false, inr call)
      :: mid ++ [(getUpdateCount call, inr (PInt (-1)))] /\
    demo_host w_pre (getUpdateCount call) = (inr (PInt (-1)), fst (snd run)).
Proof.
  intros run.
  destruct (execute_non_query_returns_reported_count
              demo_host "log_event" None (PStr "tx1") start)
    as (d & T & _ & Hret & _).
  destruct (Hret (PInt (-1)) eq_refl)
    as (call & mid & w_pre & Hd & _ & _ & Hh & _).
  exists call, mid, w_pre. split; [rewrite <- Hd; exact T | exact Hh].
Defined.

Lemma get_data_returns_reported_result_set_witness :
  let run := get_data demo_host "list_tags" None start in
  let empty := PDataset ["id"; "name"] [] in
  exists call mid w_pre,
    snd (snd run)
    = snd start ++
      (createSProcCall "list_tags" EmptyString PNone false, inr call)
      :: mid ++ [(getResultSet call, inr empty)] /\
    demo_host w_pre (getResultSet call) = (inr empty, fst (snd run)).
Proof.
  intros run empty.
  destruct (get_data_returns_reported_result_set
              demo_host "list_tags" None start)
    as (d & T & _ & Hret & _).
  destruct (Hret empty eq_refl) as (call & mid & w_pre & Hd & _ & _ & Hh).
  exists call, mid, w_pre. split; [rewrite <- Hd; exact T | exact Hh].
Defined.

(** C7 as stated fails: for a procedure that produces no result set the
    host answers [None] to [getResultSet], and [get_data] returns that
    [None], not an empty dataset. *)
Lemma get_data_absent_result_set :
  get_data demo_host "log_event" None start
  = (inr PNone,
     (3, [(createSProcCall "log_event" EmptyString PNone false, inr (PObj 8));
          (execSProcCall (PObj 8), inr PNone);
          (getResultSet (PObj 8), inr PNone)])) /\
  forall columns,
    fst (get_data demo_host "log_event" None start) <> inr (PDataset columns []).
Proof. split; [reflexivity | intros columns; discriminate]. Qed.

Lemma execute_sp_failure_propagates_witness :
  let run := _execute_sp demo_host "p" "db" PNone false
               (Some [("a", PSeq [PInt 4; PInt 5])])
               (Some [("x", PInt 4); ("bad", PInt 12)])
               true true false PNone true start in
  fst run = inl (HostError "unknown parameter") /\
  exists pre,
    snd (snd run)
    = pre ++ [(registerOutParam (PObj 7) "bad" (PInt 12),
               inl (HostError "unknown parameter"))] /\
    Forall answered pre.
Proof.
  intros run.
  destruct (execute_sp_failure_propagates
              demo_host "p" "db" PNone false
              (Some [("a", PSeq [PInt 4; PInt 5])])
              (Some [("x", PInt 4); ("bad", PInt 12)])
              true true false PNone true start)
    as (d & T & _ & Hfail & _).
  vm_compute in T. subst d.
  apply (Hfail (registerOutParam (PObj 7) "bad" (PInt 12))
               (HostError "unknown parameter")).
  right. right. right. left. reflexivity.
Defined.



Lemma get_emails_sorted_unique_witness :
  exists l,
    fst (get_emails demo_host (PStr EmptyString) (PStr "Administrator") start) = inr l /\
    Sorted str_le l /\
    NoDup l /\
    (forall e, In e l <->
               exists u, In u [alice; bob] /\
                         In "Administrator" (getRoles u) /\ has_email u e).
Proof.
  destruct (get_emails_sorted_unique demo_host (PStr EmptyString) (PStr "Administrator")
                                     [alice; bob] start 1 eq_refl)
    as (l & E & S & N & _ & R).
  exists l. split; [exact E |]. split; [exact S |]. split; [exact N |].
  apply (R "Administrator" eq_refl). discriminate.
Defined.

Lemma get_user_primary_then_failover_witness :
  fst (get_user demo_host (PStr "primary") (PStr "backup") start)
  = inr (Some (new_User alice)).
Proof.
  apply (get_user_primary_then_failover
           demo_host (PStr "primary") (PStr "backup") start
           (PStr "alice") 1 (PUser alice) 2 eq_refl eq_refl eq_refl).
  reflexivity.
Defined.

(** C3 as stated fails: the host finds the user in the source named by the
    empty string, and yet [get_user] with that primary source and no
    failover returns [None], without having looked the user up. *)
Lemma get_user_empty_primary_not_consulted :
  fst (demo_host 1 (getUser (PStr EmptyString) (PStr "alice"))) = inr (PUser alice) /\
  get_user demo_host (PStr EmptyString) PNone start
  = (inr None, (1, [(getUsername, inr (PStr "alice"))])).
Proof. split; reflexivity. Qed.

Lemma get_user_skips_empty_primary_witness :
  get_user demo_host (PStr EmptyString) PNone start
  = (inr None, (1, snd start ++ [(getUsername, inr (PStr "alice"))])).
Proof.
  apply (get_user_skips_empty_primary
           demo_host (PStr EmptyString) PNone start (PStr "alice") 1 eq_refl eq_refl).
  reflexivity.
Defined.

Lemma get_full_name_joins_witness :
  get_full_name (new_User alice) = inr "Alice Archer".
Proof.
  apply (get_full_name_joins alice "Alice" "Archer"); reflexivity.
Defined.

(** ** Further properties of the database gateway *)

Lemma disciplined_passes_failures_on {W A} (m : M W A) :
  disciplined m -> passes_failures_on m.
Proof.
  intros Hd s. destruct (disciplined_failure m s Hd) as (d & T & F & _).
  exists d. split; [exact T | exact F].
Qed.

Lemma dict_get_missing (d : pydict) k :
  ~ In k (dict_keys d) -> dict_get d k = inl (KeyError k).
Proof.
  induction d as [| [k0 v0] d IH]; simpl; intros Hk; [reflexivity |].
  destruct (String.eqb_spec k0 k) as [-> | _]; [| apply IH]; tauto.
Qed.

Lemma registration_calls_are_registrations call ins outs grv rtc :
  Forall is_registration (registration_calls call ins outs grv rtc).
Proof.
  unfold registration_calls.
  apply Forall_app; split; [| apply Forall_app; split].
  - apply Forall_forall. intros c Hc. apply in_calls_register in Hc.
    destruct Hc as (k & t & v & ->). exact I.
  - apply Forall_forall. intros c Hc. apply in_flat_map in Hc.
    destruct Hc as (k & _ & Hc). unfold out_calls in Hc.
    destruct (dict_get (declared outs) k); [contradiction |].
    destruct Hc as [<- | []]. exact I.
  - destruct grv; repeat constructor.
Qed.

Section DbFurther.

Context {W : Type}.
Variable host : W -> syscall -> result pyval * W.

(** X1: [get_return_value] registers, besides the inputs, a return parameter of
    the given type code before it executes the call; the value it returns is
    exactly what the host answered to [getReturnValue] on the call object
    it gave, the one read-back call made.  With input entries that all hold
    a type tag and a value, it raises only what the host raised and returns
    whenever the host answered every call. *)
Theorem get_return_value_returns_reported_value
    sp rtc params tx (s : state W) :
  let run := get_return_value host sp rtc params tx s in
  exists d,
    snd (snd run) = snd s ++ d /\
    host_run host (fst s) d (fst (snd run)) /\
    (forall v, fst run = inr v ->
       exists call mid w_pre,
         d = (createSProcCall sp EmptyString tx false, inr call)
             :: mid ++ [(getReturnValue call, inr v)] /\
         calls mid =
           flat_map (in_calls call (declared params))
                    (dict_keys (declared params))
           ++ [registerReturnParam call rtc; execSProcCall call] /\
         host_run host (fst s)
                  ((createSProcCall sp EmptyString tx false, inr call) :: mid)
                  w_pre /\
         host w_pre (getReturnValue call) = (inr v, fst (snd run))) /\
    (forall typed, decode (declared params) = Some typed ->
       (forall x, fst run = inl x -> failed_with x d) /\
       (Forall answered d -> exists v, fst run = inr v)).
Proof.
  intros run.
  destruct (execute_sp_outcome host sp EmptyString tx false params None
                               false false true rtc false s)
    as (d & T & R & _ & Hstrict & Hret).
  assert (run = (match fst (_execute_sp host sp EmptyString tx false params None
                                        false false true rtc false s) with
                 | inl x => inl x
                 | inr r => inr (return_value r)
                 end,
                 snd (_execute_sp host sp EmptyString tx false params None
                                  false false true rtc false s))) as Hrun
    by apply bind_ret_run.
  rewrite Hrun. cbn [fst snd].
  exists d. split; [exact T |]. split; [exact R |]. split.
  - intros v Hv.
    destruct (fst (_execute_sp host sp EmptyString tx false params None
                               false false true rtc false s))
      as [y | r]; [discriminate |].
    injection Hv as <-.
    destruct (Hret r eq_refl) as (_ & call & d_reg & x & vs & H).
    cbv zeta in H. destruct H as (L & Hd & C & _).
    destruct vs; [| discriminate]. simpl in Hd.
    unfold registration_calls in C. simpl in C.
    assert (d = ((createSProcCall sp EmptyString tx false, inr call)
                 :: d_reg ++ [(execSProcCall call, inr x)])
                ++ [(getReturnValue call, inr (return_value r))]) as Hd'.
    { rewrite Hd. simpl. rewrite <- app_assoc. reflexivity. }
    rewrite Hd' in R. apply host_run_last in R. destruct R as (w_pre & Rpre & Rlast).
    exists call, (d_reg ++ [(execSProcCall call, inr x)]), w_pre.
    split; [exact Hd' |]. split.
    { unfold calls in *. rewrite map_app. simpl.
      change [registerReturnParam call rtc; execSProcCall call]
        with ([registerReturnParam call rtc] ++ [execSProcCall call]).
      rewrite app_assoc. f_equal. exact C. }
    split; [exact Rpre | exact Rlast].
  - intros typed Hdec. destruct (Hstrict typed Hdec) as [Hraise Hlive]. split.
    + intros x Hx. apply Hraise.
      destruct (fst (_execute_sp host sp EmptyString tx false params None
                                 false false true rtc false s));
        [injection Hx as ->; reflexivity | discriminate].
    + intros F. destruct (Hlive F) as (r & ->). eexists. reflexivity.
Qed.

(** X2: what [get_output_params] returns is always a dict, never [None]: its
    keys are the declared output names, each holding what the host answered
    to reading that name back from the call object it gave, and looking up
    any other name in it raises [KeyError].  With input entries that all
    hold a type tag and a value, it raises only what the host raised and
    returns whenever the host answered every call. *)
Theorem get_output_params_returns_declared
    sp output params tx (s : state W) :
  let run := get_output_params host sp output params tx s in
  exists d,
    snd (snd run) = snd s ++ d /\
    host_run host (fst s) d (fst (snd run)) /\
    (forall v, fst run = inr v ->
       exists od call rest,
         v = PDict od /\
         d = (createSProcCall sp EmptyString tx false, inr call) :: rest /\
         NoDup (dict_keys od) /\
         (forall k, In k (dict_keys od) <-> In k (dict_keys (declared output))) /\
         (forall k, In k (dict_keys (declared output)) ->
            exists x w1 w2,
              getkey v k = inr x /\
              In (getOutParamValue call k, inr x) rest /\
              host w1 (getOutParamValue call k) = (inr x, w2)) /\
         (forall k, ~ In k (dict_keys (declared output)) ->
            getkey v k = inl (KeyError k))) /\
    (forall typed, decode (declared params) = Some typed ->
       (forall x, fst run = inl x -> failed_with x d) /\
       (Forall answered d -> exists v, fst run = inr v)).
Proof.
  intros run.
  destruct (execute_sp_outcome host sp EmptyString tx false params output
                               true false false PNone false s)
    as (d & T & R & _ & Hstrict & Hret).
  assert (run = (match fst (_execute_sp host sp EmptyString tx false params
                                        output true false false PNone false s) with
                 | inl x => inl x
                 | inr r => inr (output_params r)
                 end,
                 snd (_execute_sp host sp EmptyString tx false params output
                                  true false false PNone false s))) as Hrun
    by apply bind_ret_run.
  rewrite Hrun. cbn [fst snd].
  exists d. split; [exact T |]. split; [exact R |]. split.
  - intros v Hv.
    destruct (fst (_execute_sp host sp EmptyString tx false params output
                               true false false PNone false s))
      as [y | r]; [discriminate |].
    injection Hv as <-.
    destruct (Hret r eq_refl) as (_ & call & d_reg & x & vs & H).
    cbv zeta in H. destruct H as (L & Hd & _ & Hop & _).
    simpl in Hd. rewrite !app_nil_r in Hd.
    set (got := combine (dict_keys (declared output)) vs) in *.
    assert (forall k, In k (dict_keys (fold_left store got []))
                      <-> In k (dict_keys (declared output))) as Hkeys.
    { intros k. unfold got.
      rewrite fold_store_keys, (map_fst_combine _ _ L). simpl. tauto. }
    eexists. exists call. eexists.
    split; [exact Hop |]. split; [exact Hd |].
    split; [apply fold_store_NoDup; constructor |].
    split; [exact Hkeys |]. split.
    + intros k Hk. rewrite Hop. simpl.
      assert (In k (map fst got)) as Hk'.
      { unfold got. rewrite (map_fst_combine _ _ L). exact Hk. }
      destruct (fold_store_get got [] k Hk') as (y & Hy & Hin).
      assert (In (getOutParamValue call k, inr y)
                 (d_reg ++ (execSProcCall call, inr x) :: map (out_event call) got))
        as Hev.
      { apply in_or_app. right. right.
        change (getOutParamValue call k, inr y) with (out_event call (k, y)).
        apply in_map. exact Hin. }
      assert (In (getOutParamValue call k, inr y) d) as Hd_in.
      { rewrite Hd. right. exact Hev. }
      destruct (host_run_in host d _ _ _ _ R Hd_in) as (w1 & w2 & Hh).
      exists y, w1, w2. split; [exact Hy |]. split; [exact Hev | exact Hh].
    + intros k Hk. rewrite Hop. simpl. apply dict_get_missing.
      rewrite Hkeys. exact Hk.
  - intros typed Hdec. destruct (Hstrict typed Hdec) as [Hraise Hlive]. split.
    + intros x Hx. apply Hraise.
      destruct (fst (_execute_sp host sp EmptyString tx false params output
                                 true false false PNone false s));
        [injection Hx as ->; reflexivity | discriminate].
    + intros F. destruct (Hlive F) as (r & ->). eexists. reflexivity.
Qed.

(** X3: whatever the inputs and the host, the calls of a run of [_execute_sp]
    are an initial part of: the creation of the call object, registration
    calls, one execution, read-back calls.  So the call is executed at most
    once, nothing is registered after the execution and nothing is read
    back before it. *)
Theorem execute_sp_call_order_any_input
    sp db tx sa ins outs gop grs grv rtc guc (s : state W) :
  exists d call regs rb,
    snd (snd (_execute_sp host sp db tx sa ins outs gop grs grv rtc guc s))
    = snd s ++ d /\
    is_prefix (calls d)
              (createSProcCall sp db tx sa :: regs ++ execSProcCall call :: rb) /\
    Forall is_registration regs /\
    Forall is_readback rb.
Proof.
  destruct (execute_sp_emits host sp db tx sa ins outs gop grs grv rtc guc s)
    as (d & T & H).
  destruct (fst (host (fst s) (createSProcCall sp db tx sa))) as [x | call].
  - destruct H as [H _]. exists d, PNone, [], []. split; [exact T |].
    rewrite H. split; [exists [execSProcCall PNone]; reflexivity |].
    split; constructor.
  - destruct H as [P _].
    exists d, call, (registration_calls call ins outs grv rtc),
      (readback_calls call outs grs grv guc).
    split; [exact T |]. split; [exact P |].
    split; [apply registration_calls_are_registrations
           | apply readback_calls_are_readback].
Qed.

Lemma agree_bind_same {A B C} (Q : B -> C -> Prop)
    (m : M W A) (f : A -> M W B) (g : A -> M W C) (s : state W) :
  (forall a s1, agree Q (f a s1) (g a s1)) ->
  agree Q (bind m f s) (bind m g s).
Proof.
  intros H. unfold bind. destruct (m s) as [[x | a] s1].
  - split; reflexivity.
  - apply H.
Qed.

Lemma agree_bind {A A' B C} (Q0 : A -> A' -> Prop) (Q : B -> C -> Prop)
    (m : M W A) (m' : M W A') (f : A -> M W B) (g : A' -> M W C)
    (s : state W) :
  agree Q0 (m s) (m' s) ->
  (forall a a' s1, Q0 a a' -> agree Q (f a s1) (g a' s1)) ->
  agree Q (bind m f s) (bind m' g s).
Proof.
  intros [Hs Hr] H. unfold bind.
  destruct (m s) as [[x | a] s1], (m' s) as [[x' | a'] s1'];
    simpl in *; subst; try contradiction.
  - split; reflexivity.
  - apply H. exact Hr.
Qed.

Lemma agree_facet (Q : _Result -> _Result -> Prop) (b : bool) c
    (r r' : _Result) (upd : _Result -> pyval -> _Result) (s : state W) :
  Q r r' ->
  (forall v, Q (upd r v) (upd r' v)) ->
  agree Q
    ((if b then bind (sys host c) (fun v => ret (upd r v)) else ret r) s)
    ((if b then bind (sys host c) (fun v => ret (upd r' v)) else ret r') s).
Proof.
  intros HQ Hupd. destruct b.
  - apply agree_bind_same. intros v s1. split; [reflexivity | apply Hupd].
  - split; [reflexivity | exact HQ].
Qed.

(** X4: the output parameters are read back from the call whether or not the
    caller asked for them.  [get_out_params] changes neither the calls made
    nor the state the host is left in nor the exception raised, only the
    [output_params] field of the bundle; and a run with the flag off that
    returns has asked the host, on the call object it gave, for the value
    of every declared output parameter, and was answered.  With input
    entries that all hold a type tag and a value, such a run raises only
    what the host raised and returns whenever the host answered every
    call. *)
Theorem execute_sp_reads_outputs_regardless
    sp db tx sa ins outs grs grv rtc guc (s : state W) :
  let asked := _execute_sp host sp db tx sa ins outs true grs grv rtc guc s in
  let unasked := _execute_sp host sp db tx sa ins outs false grs grv rtc guc s in
  agree (fun r r' =>
           output_params r' = PNone /\
           result_set r = result_set r' /\
           return_value r = return_value r' /\
           update_count r = update_count r')
        asked unasked /\
  exists d,
    snd (snd unasked) = snd s ++ d /\
    host_run host (fst s) d (fst (snd unasked)) /\
    (forall r, fst unasked = inr r ->
       exists call rest,
         d = (createSProcCall sp db tx sa, inr call) :: rest /\
         forall k, In k (dict_keys (declared outs)) ->
           exists v w1 w2,
             In (getOutParamValue call k, inr v) rest /\
             host w1 (getOutParamValue call k) = (inr v, w2)) /\
    (forall typed, decode (declared ins) = Some typed ->
       (forall x, fst unasked = inl x -> failed_with x d) /\
       (Forall answered d -> exists r, fst unasked = inr r)).
Proof.
  intros asked unasked. split.
  { subst asked unasked. unfold _execute_sp.
    apply agree_bind_same. intros call s1.
    apply agree_bind_same. intros u1 s2.
    apply agree_bind_same. intros u2 s3.
    apply agree_bind_same. intros u3 s4.
    apply agree_bind_same. intros u4 s5.
    apply agree_bind_same. intros od s6.
    set (Q := fun r r' : _Result =>
                output_params r' = PNone /\
                result_set r = result_set r' /\
                return_value r = return_value r' /\
                update_count r = update_count r').
    apply agree_bind with (Q0 := Q).
    { split; [reflexivity | repeat split]. }
    intros r1 r1' s7 H1.
    apply agree_bind with (Q0 := Q).
    { apply agree_facet; [exact H1 |]. intros v. unfold Q in *. simpl. tauto. }
    intros r2 r2' s8 H2.
    apply agree_bind with (Q0 := Q).
    { apply agree_facet; [exact H2 |]. intros v. unfold Q in *. simpl. tauto. }
    intros r3 r3' s9 H3.
    apply agree_bind with (Q0 := Q).
    { apply agree_facet; [exact H3 |]. intros v. unfold Q in *. simpl. tauto. }
    intros r4 r4' s10 H4. split; [reflexivity | exact H4]. }
  destruct (execute_sp_outcome host sp db tx sa ins outs
                               false grs grv rtc guc s)
    as (d & T & R & _ & Hstrict & Hret).
  exists d. split; [exact T |]. split; [exact R |]. split; [| exact Hstrict].
  intros r Hr. destruct (Hret r Hr) as (_ & call & d_reg & x & vs & H).
  cbv zeta in H. destruct H as (L & Hd & _).
  exists call. eexists. split; [exact Hd |].
  intros k Hk. rewrite <- (map_fst_combine _ _ L) in Hk.
  destruct (fold_store_get _ [] k Hk) as (v & _ & Hin).
  assert (In (getOutParamValue call k, inr v)
             (d_reg ++
              (execSProcCall call, inr x)
              :: map (out_event call) (combine (dict_keys (declared outs)) vs) ++
              (if grs then [(getResultSet call, inr (result_set r))] else []) ++
              (if grv then [(getReturnValue call, inr (return_value r))] else []) ++
              (if guc then [(getUpdateCount call, inr (update_count r))] else [])))
    as Hev.
  { apply in_or_app. right. right. apply in_or_app. left.
    change (getOutParamValue call k, inr v) with (out_event call (k, v)).
    apply in_map. exact Hin. }
  assert (In (getOutParamValue call k, inr v) d) as Hd_in.
  { rewrite Hd. right. exact Hev. }
  destruct (host_run_in host d _ _ _ _ R Hd_in) as (w1 & w2 & Hh).
  exists v, w1, w2. split; [exact Hev | exact Hh].
Qed.

Lemma register_in_short_entry call (d : pydict) k items (s : state W) :
  dict_get d k = inr (PSeq items) ->
  List.length items < 2 ->
  register_in host call d k tt s = (inl IndexError, s).
Proof.
  intros Hget Hlen. unfold register_in, bind. rewrite Hget. simpl.
  destruct items as [| t [| v items]]; simpl in *; try reflexivity.
  unfold lt in Hlen. do 2 apply le_S_n in Hlen. inversion Hlen.
Qed.

Lemma register_in_loop_short_entry call (d : pydict) k items keys :
  dict_get d k = inr (PSeq items) ->
  List.length items < 2 ->
  In k keys ->
  forall s : state W,
    exists x, fst (for_each keys (register_in host call d) tt s) = inl x.
Proof.
  intros Hget Hlen. induction keys as [| k0 keys IH]; intros Hin s.
  - contradiction.
  - simpl. unfold bind.
    destruct (register_in host call d k0 tt s) as [[x | []] s1] eqn:E.
    + exists x. reflexivity.
    + destruct Hin as [-> | Hin].
      * rewrite (register_in_short_entry call d k items s Hget Hlen) in E.
        discriminate.
      * apply IH. exact Hin.
Qed.

(** X5: an entry of the input map that does not hold both a type tag and a
    value makes [_execute_sp] raise during registration: it never returns,
    and it has made no call but the creation of the call object and
    registrations of input parameters; in particular the stored procedure
    is not executed. *)
Theorem execute_sp_short_input_entry_raises
    sp db tx sa (d : pydict) outs gop grs grv rtc guc k items
    (s : state W) call w1 :
  NoDup (dict_keys d) ->
  In (k, PSeq items) d ->
  List.length items < 2 ->
  host (fst s) (createSProcCall sp db tx sa) = (inr call, w1) ->
  let run := _execute_sp host sp db tx sa (Some d) outs gop grs grv rtc guc s in
  (exists x, fst run = inl x) /\
  exists d_in,
    snd (snd run) = snd s ++ (createSProcCall sp db tx sa, inr call) :: d_in /\
    forall c, In c (calls d_in) -> exists k' t v, c = registerInParam call k' t v.
Proof.
  intros ND Hin Hlen Hcreate run.
  pose proof (dict_get_in d (k, PSeq items) ND Hin) as Hget. simpl in Hget.
  assert (In k (dict_keys d)) as Hk by (apply (in_map fst) in Hin; exact Hin).
  assert (nonempty (Some d) = Some d) as Hne.
  { destruct d; [contradiction | reflexivity]. }
  assert (exists x s2 d_in,
             run = (inl x, s2) /\
             snd s2 = snd s ++ (createSProcCall sp db tx sa, inr call) :: d_in /\
             is_prefix (calls d_in)
                       (flat_map (in_calls call d) (dict_keys d)))
    as (x & s2 & d_in & Hrun & T & [rest P]).
  { subst run. unfold _execute_sp. unfold bind at 1.
    rewrite (sys_eq host _ _ _ _ Hcreate). unfold bind at 1. rewrite Hne.
    match goal with
    | |- context [for_each ?ks ?b tt ?st] =>
        destruct (register_in_loop_short_entry call d k items (dict_keys d)
                    Hget Hlen Hk st) as (x & Hx);
        destruct (emits_for_each (register_in host call d) (in_calls call d)
                    (dict_keys d)
                    (fun k0 u => register_in_emits host call d k0 u)
                    tt st) as (d_in & T & P & _);
        destruct (for_each ks b tt st) as [[x' | u] s2]
    end; simpl in Hx, T; [| discriminate].
    exists x', s2, d_in. split; [reflexivity |]. split; [| exact P].
    etransitivity; [exact T |]. rewrite <- app_assoc. reflexivity. }
  rewrite Hrun. simpl. split; [exists x; reflexivity |].
  exists d_in. split; [exact T |].
  intros c Hc. apply (in_calls_register call d (dict_keys d)).
  rewrite P. apply in_or_app. left. exact Hc.
Qed.

(** X6: the public functions of the module add no handling of their own: when
    the host raises on a call, that call is the last one made and the
    function raises that exception. *)
Theorem db_functions_pass_failures_on sp output rtc params tx :
  passes_failures_on (execute_non_query host sp params tx) /\
  passes_failures_on (get_data host sp params) /\
  passes_failures_on (get_output_params host sp output params tx) /\
  passes_failures_on (get_return_value host sp rtc params tx).
Proof.
  repeat split; apply disciplined_passes_failures_on;
    (apply disciplined_bind;
     [apply execute_sp_disciplined | intros r; apply disciplined_ret]).
Qed.

End DbFurther.

(** ** Further properties of the user gateway *)

Lemma str_le_cases a b : str_le a b -> a = b \/ String.compare a b = Lt.
Proof.
  unfold str_le, String.leb. destruct (String.compare a b) eqn:E; intros H.
  - left. apply String.compare_eq_iff. exact E.
  - right. reflexivity.
  - discriminate.
Qed.

Lemma str_le_trans a b c : str_le a b -> str_le b c -> str_le a c.
Proof.
  intros Hab Hbc.
  destruct (str_le_cases a b Hab) as [-> | Lab]; [exact Hbc |].
  destruct (str_le_cases b c Hbc) as [<- | Lbc]; [exact Hab |].
  unfold str_le, String.leb.
  assert (String.compare a c = Lt) as ->; [| reflexivity].
  apply OrderedTypeEx.String_as_OT.cmp_lt.
  apply OrderedTypeEx.String_as_OT.lt_trans with b;
    apply OrderedTypeEx.String_as_OT.cmp_lt; assumption.
Qed.

Lemma sorted_StronglySorted l : StronglySorted str_le (sorted l).
Proof.
  apply Sorted_StronglySorted.
  - intros a b c. apply str_le_trans.
  - apply sorted_Sorted.
Qed.

(** An ascending list without duplicates is determined by its elements. *)
Lemma ascending_unique (l1 : list string) : forall l2,
  StronglySorted str_le l1 -> StronglySorted str_le l2 ->
  NoDup l1 -> NoDup l2 ->
  (forall e, In e l1 <-> In e l2) ->
  l1 = l2.
Proof.
  induction l1 as [| a l1 IH]; intros [| b l2] S1 S2 N1 N2 Hin.
  - reflexivity.
  - destruct (proj2 (Hin b) (or_introl eq_refl)).
  - destruct (proj1 (Hin a) (or_introl eq_refl)).
  - inversion S1 as [| ? ? S1' F1]; inversion S2 as [| ? ? S2' F2]; subst.
    inversion N1 as [| ? ? Na N1']; inversion N2 as [| ? ? Nb N2']; subst.
    rewrite Forall_forall in F1, F2.
    assert (a = b) as ->.
    { destruct (proj1 (Hin a) (or_introl eq_refl)) as [E | Ha]; [auto |].
      destruct (proj2 (Hin b) (or_introl eq_refl)) as [E | Hb]; [auto |].
      apply String.leb_antisym; [apply F1 | apply F2]; assumption. }
    f_equal. apply IH; try assumption.
    intros e. split; intros He.
    + destruct (proj1 (Hin e) (or_intror He)) as [<- | H]; [contradiction | exact H].
    + destruct (proj2 (Hin e) (or_intror He)) as [<- | H]; [contradiction | exact H].
Qed.

Section UserFurther.

Context {W : Type}.
Variable host : W -> syscall -> result pyval * W.

Lemma get_emails_run user_source filter_role (us : list User)
    (s : state W) w1 :
  host (fst s) (getUsers user_source) = (inr (PSeq (map PUser us)), w1) ->
  fst (get_emails host user_source filter_role s)
  = inr (sorted (fold_left (fun acc u => add_emails filter_role u acc) us [])).
Proof.
  intros Hhost. unfold get_emails, bind.
  rewrite (sys_eq host _ _ _ _ Hhost). simpl.
  rewrite collect_loop. reflexivity.
Qed.

(** X7: a role filter only takes addresses away: for the same users, what
    [get_emails] returns with a role filter is part of what it returns
    without one. *)
Theorem get_emails_filter_narrows user_source no_filter filter_role
    (us : list User) (s : state W) w1 l_all l_role :
  truthy no_filter = false ->
  host (fst s) (getUsers user_source) = (inr (PSeq (map PUser us)), w1) ->
  fst (get_emails host user_source no_filter s) = inr l_all ->
  fst (get_emails host user_source filter_role s) = inr l_role ->
  incl l_role l_all.
Proof.
  intros Hno Hhost Hall Hrole.
  rewrite (get_emails_run _ no_filter us s w1 Hhost) in Hall.
  rewrite (get_emails_run _ filter_role us s w1 Hhost) in Hrole.
  injection Hall as <-. injection Hrole as <-.
  intros e He. rewrite sorted_in, collected_in in *.
  destruct He as [[] | (u & Hu & _ & Hmail)].
  right. exists u. split; [exact Hu |]. split; [| exact Hmail].
  unfold wanted. rewrite Hno. reflexivity.
Qed.

Lemma collect_state filter_role (items : list pyval) : forall acc (s : state W),
  snd (for_each items (collect_emails filter_role) acc s) = s.
Proof.
  induction items as [| item items IH]; simpl; intros acc s; [reflexivity |].
  unfold bind at 1. unfold collect_emails at 1.
  destruct item; simpl; try reflexivity. apply IH.
Qed.

(** X9: [get_emails] asks the host for the users of the source once and makes
    no other call into the host; when that call raises, [get_emails]
    raises the same exception. *)
Theorem get_emails_single_lookup user_source filter_role (s : state W) :
  let answer := host (fst s) (getUsers user_source) in
  snd (get_emails host user_source filter_role s)
  = (snd answer, snd s ++ [(getUsers user_source, fst answer)]) /\
  (forall x, fst answer = inl x ->
             fst (get_emails host user_source filter_role s) = inl x).
Proof.
  cbv zeta.
  destruct (host (fst s) (getUsers user_source)) as [[x | users] w1] eqn:Hh;
    unfold get_emails, bind; rewrite (sys_eq host _ _ _ _ Hh); simpl.
  - split; [reflexivity | intros y [= <-]; reflexivity].
  - split; [| discriminate].
    destruct users; simpl; try reflexivity.
    match goal with
    | |- context [for_each ?items ?b ?acc ?st] =>
        pose proof (collect_state filter_role items acc st) as Hs;
        destruct (for_each items b acc st) as [[x | l] s2]
    end; simpl in *; exact Hs.
Qed.




End UserFurther.

(** X8: the list [get_emails] returns does not depend on the order in which the
    host lists the users, nor on a user being listed twice: two answers
    with the same users give the same list. *)
Theorem get_emails_order_independent {W W' : Type}
    (host : W -> syscall -> result pyval * W)
    (host' : W' -> syscall -> result pyval * W')
    user_source user_source' filter_role
    (us us' : list User) (s : state W) (s' : state W') w1 w1' :
  host (fst s) (getUsers user_source) = (inr (PSeq (map PUser us)), w1) ->
  host' (fst s') (getUsers user_source') = (inr (PSeq (map PUser us')), w1') ->
  (forall u, In u us <-> In u us') ->
  fst (get_emails host user_source filter_role s)
  = fst (get_emails host' user_source' filter_role s').
Proof.
  intros Hhost Hhost' Hsame.
  rewrite (get_emails_run host _ _ us s w1 Hhost).
  rewrite (get_emails_run host' _ _ us' s' w1' Hhost').
  f_equal. apply ascending_unique.
  - apply sorted_StronglySorted.
  - apply sorted_StronglySorted.
  - apply sorted_NoDup, collected_NoDup. constructor.
  - apply sorted_NoDup, collected_NoDup. constructor.
  - intros e. rewrite !sorted_in, !collected_in.
    split; (intros [[] | (u & Hu & H)]; right; exists u; split;
            [apply Hsame; exact Hu | exact H]).
Qed.

(** X12: when the first or the last name of the user is not set, [get_full_name]
    raises [TypeError] instead of returning a name. *)
Theorem get_full_name_unset_name (user : User) :
  get user FirstName = None \/ get user LastName = None ->
  get_full_name (new_User user) = inl TypeError.
Proof.
  unfold get_full_name, new_User. simpl.
  intros [-> | ->]; [reflexivity |].
  destruct (get user FirstName); reflexivity.
Qed.

(** ** The further properties at work on the demonstration host *)

Lemma get_return_value_returns_reported_value_witness :
  let run := get_return_value demo_host "count_tags" (PInt 4)
               (Some [("area", PSeq [PInt 12; PStr "north"])]) PNone start in
  exists call mid w_pre,
    snd (snd run)
    = snd start ++
      (createSProcCall "count_tags" EmptyString PNone false, inr call)
      :: mid ++ [(getReturnValue call, inr (PInt 0))] /\
    calls mid = [registerInParam call "area" (PInt 12) (PStr "north");
                 registerReturnParam call (PInt 4);
                 execSProcCall call] /\
    demo_host w_pre (getReturnValue call) = (inr (PInt 0), fst (snd run)).
Proof.
  intros run.
  destruct (get_return_value_returns_reported_value
              demo_host "count_tags" (PInt 4)
              (Some [("area", PSeq [PInt 12; PStr "north"])]) PNone start)
    as (d & T & _ & Hret & _).
  destruct (Hret (PInt 0) eq_refl) as (call & mid & w_pre & Hd & C & _ & Hh).
  exists call, mid, w_pre. split; [rewrite <- Hd; exact T |].
  split; [exact C | exact Hh].
Defined.

Lemma get_output_params_returns_declared_witness :
  let v := PDict [("x", PInt 42); ("y", PInt 42)] in
  exists od call rest,
    v = PDict od /\
    snd (snd (get_output_params demo_host "p"
                (Some [("x", PInt 4); ("y", PInt 12)]) None PNone start))
    = snd start ++ (createSProcCall "p" EmptyString PNone false, inr call) :: rest /\
    NoDup (dict_keys od) /\
    (forall k, In k (dict_keys od) <-> In k ["x"; "y"]) /\
    (forall k, In k ["x"; "y"] ->
       exists x w1 w2,
         getkey v k = inr x /\
         In (getOutParamValue call k, inr x) rest /\
         demo_host w1 (getOutParamValue call k) = (inr x, w2)) /\
    (forall k, ~ In k ["x"; "y"] -> getkey v k = inl (KeyError k)).
Proof.
  intros v.
  destruct (get_output_params_returns_declared
              demo_host "p" (Some [("x", PInt 4); ("y", PInt 12)]) None PNone
              start)
    as (d & T & _ & Hret & _).
  destruct (Hret v eq_refl) as (od & call & rest & E & Hd & N & K & H & M).
  exists od, call, rest. split; [exact E |].
  split; [rewrite <- Hd; exact T |]. split; [exact N |].
  split; [exact K |]. split; [exact H | exact M].
Defined.

Lemma execute_sp_short_input_entry_raises_witness :
  let run := _execute_sp demo_host "p" "db" PNone false
               (Some [("a", PSeq [PInt 4; PInt 5]); ("b", PSeq [PInt 12])])
               (Some [("x", PInt 4)]) true true true (PInt 4) true start in
  (exists x, fst run = inl x) /\
  exists d_in,
    snd (snd run)
    = snd start ++ (createSProcCall "p" "db" PNone false, inr (PObj 7)) :: d_in /\
    forall c, In c (calls d_in) ->
              exists k' t v, c = registerInParam (PObj 7) k' t v.
Proof.
  apply (execute_sp_short_input_entry_raises
           demo_host "p" "db" PNone false
           [("a", PSeq [PInt 4; PInt 5]); ("b", PSeq [PInt 12])]
           (Some [("x", PInt 4)]) true true true (PInt 4) true
           "b" [PInt 12] start (PObj 7) 1).
  - repeat constructor; simpl; intuition discriminate.
  - right. left. reflexivity.
  - repeat constructor.
  - reflexivity.
Defined.

Lemma get_emails_filter_narrows_witness :
  incl ["bob@plant.example"; "ops@plant.example"]
       ["alice@plant.example"; "bob@plant.example"; "ops@plant.example"].
Proof.
  apply (get_emails_filter_narrows
           demo_host (PStr "plant") PNone (PStr "Administrator")
           [alice; bob] start 1); reflexivity.
Defined.

Lemma get_emails_order_independent_witness :
  fst (get_emails demo_host (PStr "plant") (PStr "Operator") start)
  = fst (get_emails relisting_host (PStr "plant") (PStr "Operator") start).
Proof.
  apply (get_emails_order_independent
           demo_host relisting_host (PStr "plant") (PStr "plant")
           (PStr "Operator") [alice; bob] [bob; alice; bob] start start 1 1).
  - reflexivity.
  - reflexivity.
  - intros u. simpl. tauto.
Defined.


Lemma get_full_name_unset_name_witness :
  get_full_name (new_User carol) = inl TypeError.
Proof.
  apply (get_full_name_unset_name carol). left. reflexivity.
Defined.

Lemma execute_sp_reads_outputs_regardless_witness :
  let unasked := _execute_sp demo_host "p" "db" PNone false None
                   (Some [("x", PInt 4)]) false false false PNone true start in
  exists call rest v w1 w2,
    snd (snd unasked)
    = snd start ++ (createSProcCall "p" "db" PNone false, inr call) :: rest /\
    In (getOutParamValue call "x", inr v) rest /\
    demo_host w1 (getOutParamValue call "x") = (inr v, w2).
Proof.
  intros unasked.
  destruct (execute_sp_reads_outputs_regardless
              demo_host "p" "db" PNone false None (Some [("x", PInt 4)])
              false false PNone true start)
    as (_ & d & T & _ & Hret & _).
  destruct (Hret _ eq_refl) as (call & rest & Hd & Hk).
  destruct (Hk "x" (or_introl eq_refl)) as (v & w1 & w2 & Hin & Hh).
  exists call, rest, v, w1, w2.
  split; [rewrite <- Hd; exact T |]. split; [exact Hin | exact Hh].
Defined.
